(** * volatility: template engine and VAD region scanner

    A shallow embedding of
      - volatility/plugins/windows/vadyarascan.py
          (VadYaraScan.get_requirements, VadYaraScan._generator,
           vad_iterator_factory / scan_iterator)
      - volatility/framework/objects/templates.py
          (ObjectTemplate, ReferenceTemplate)
    together with the properties stated about them. *)

From Stdlib Require Import ZArith Lia List Ascii String.
From stdpp Require Import base option gmap strings list fin_maps.

Open Scope Z_scope.

(** ** Part I: the region scanner (vadyarascan.py, [scan_iterator]) *)

Module Scanner.

(** [interfaces.layers.ScannerInterface]: the two attributes the iterator
    reads.  Python integers are unbounded, hence [Z]. *)
Record ScannerInterface := {
  chunk_size : Z;
  overlap : Z
}.

(** A VAD node, as seen through [vad.get_start()] and [vad.get_end()]. *)
Record Vad := {
  get_start : Z;
  get_end : Z
}.

(** One section of a read request: [(layer_name, offset, length)]. *)
Definition Section_ : Type := string * Z * Z.

(** [interfaces.layers.IteratorValue]: the list of sections to read and the
    address reached once they are read. *)
Definition IteratorValue : Type := list Section_ * Z.

(** The value yielded inside the loop (lines 103-104). *)
Definition full_chunk (scanner : ScannerInterface) (layer_name : string)
    (start : Z) : IteratorValue :=
  ([(layer_name, start, chunk_size scanner + overlap scanner)],
   start + chunk_size scanner + overlap scanner).

(** The value yielded after the loop (line 106). *)
Definition last_chunk (layer_name : string) (start end_ : Z) : IteratorValue :=
  ([(layer_name, start, end_ - start)], end_).

(** Lines 102-106 for one VAD.  [fuel] bounds the number of executions of
    the loop body; [None] means the bound was reached with the guard still
    true.  The yields are collected in order. *)
Fixpoint scan_region (fuel : nat) (scanner : ScannerInterface)
    (layer_name : string) (start end_ : Z) : option (list IteratorValue) :=
  if end_ - start >? chunk_size scanner + overlap scanner then
    match fuel with
    | O => None
    | S fuel' =>
        match scan_region fuel' scanner layer_name
                (start + chunk_size scanner) end_ with
        | Some rest => Some (full_chunk scanner layer_name start :: rest)
        | None => None
        end
    end
  else Some [last_chunk layer_name start end_].

(** Lines 99-106: the [for vad in vad_root.traverse()] loop.  [vads] is the
    sequence produced by the traversal.  [min_address] and [max_address] are
    parameters of the source function that its body never reads. *)
Fixpoint scan_iterator (fuel : nat) (layer_name : string)
    (vads : list Vad) (scanner : ScannerInterface)
    (min_address max_address : Z) : option (list IteratorValue) :=
  match vads with
  | [] => Some []
  | vad :: vads' =>
      let end_ := get_end vad in
      let start := get_start vad in
      match scan_region fuel scanner layer_name start end_ with
      | Some chunks =>
          match scan_iterator fuel layer_name vads' scanner
                  min_address max_address with
          | Some rest => Some (chunks ++ rest)
          | None => None
          end
      | None => None
      end
  end.

(** *** Vocabulary for the boundary law *)

(** Byte range [lo, hi) of a yielded value (it always has one section). *)
Definition chunk_lo (v : IteratorValue) : Z :=
  match fst v with
  | (_, off, _) :: _ => off
  | [] => 0
  end.

Definition chunk_len (v : IteratorValue) : Z :=
  match fst v with
  | (_, _, len) :: _ => len
  | [] => 0
  end.

Definition chunk_hi (v : IteratorValue) : Z := chunk_lo v + chunk_len v.

Definition covers (v : IteratorValue) (x : Z) : Prop :=
  chunk_lo v <= x < chunk_hi v.

(** Number of bytes two ranges have in common. *)
Definition common_bytes (a b : IteratorValue) : Z :=
  Z.max 0 (Z.min (chunk_hi a) (chunk_hi b) - Z.max (chunk_lo a) (chunk_lo b)).

(** Ceiling of [a / b] for positive [b]. *)
Definition ceil_div (a b : Z) : Z := - ((- a) / b).

(** The chunk count the boundary law announces. *)
Definition expected_chunks (L C O : Z) : Z :=
  if L >? C + O then ceil_div (Z.max (L - O) 0) C else 1.

(** Number of loop iterations that is enough for a region. *)
Definition region_fuel (scanner : ScannerInterface) (start end_ : Z) : nat :=
  Z.to_nat (end_ - start).

(** The scanners of the concrete scenarios. *)
Definition scanner_400_50 : ScannerInterface :=
  {| chunk_size := 400; overlap := 50 |}.

Definition scanner_1000_10 : ScannerInterface :=
  {| chunk_size := 1000; overlap := 10 |}.

(** The list a region yields when the loop body runs [n] times from
    [start]: [n] full chunks, then the remainder. *)
Definition region_chunks (scanner : ScannerInterface) (layer_name : string)
    (end_ : Z) (n : nat) (start : Z) : list IteratorValue :=
  map (fun i : nat =>
         full_chunk scanner layer_name
           (start + Z.of_nat i * chunk_size scanner))
      (seq 0 n)
  ++ [last_chunk layer_name (start + Z.of_nat n * chunk_size scanner) end_].

(** A bound on the iterations that is enough for every region of a
    traversal. *)
Fixpoint traversal_fuel (vads : list Vad) : nat :=
  match vads with
  | [] => O
  | vad :: vads' =>
      Nat.max (Z.to_nat (get_end vad - get_start vad)) (traversal_fuel vads')
  end.

(** The chunk count of a whole traversal: the counts of its regions, added
    up. *)
Fixpoint expected_total (scanner : ScannerInterface) (vads : list Vad) : Z :=
  match vads with
  | [] => 0
  | vad :: vads' =>
      expected_chunks (get_end vad - get_start vad)
        (chunk_size scanner) (overlap scanner)
      + expected_total scanner vads'
  end.

(** The window [x, x + m) lies inside the byte range of [v]. *)
Definition holds_window (v : IteratorValue) (x m : Z) : Prop :=
  chunk_lo v <= x /\ x + m <= chunk_hi v.

End Scanner.

(** ** Part II: the template engine (templates.py) *)

Module Templates.

(** Objects that live in the Python heap are named by their address. *)
Definition loc : Type := nat.

(** Python values that occur as template parameters. *)
Inductive Value : Type :=
| VNone
| VBool (b : bool)
| VInt (z : Z)
| VStr (s : string)
| VClass (name : string)                      (* a class object *)
| VTemplate (t : loc)                         (* a template object *)
| VMembers (ms : list (string * (Z * loc))).  (* name, offset, template *)

(** Exceptions. *)
Inductive Error : Type :=
| ValidationError                 (* the capability check failed *)
| LookupError (name : string)     (* the symbol space has no such structure *)
| ChildNotFoundException
| NotImplementedError
| KeyError (key : string)
| AttributeError (attr : string)
| TypeError
| RecursionError
| InvalidReference.               (* an address with no object behind it *)

Inductive Result (A : Type) : Type :=
| Ok (a : A)
| Raise (e : Error).
Arguments Ok {A} a.
Arguments Raise {A} e.

(** The two template classes of templates.py. *)
Inductive Variant : Type := Direct | Reference.

(** A template object: its class and the address of the dictionary that
    holds its parameters. *)
Record TemplateObject := {
  variant : Variant;
  arguments_of : loc
}.

(** The heap: dictionaries, template objects and symbol spaces, each
    mutable and shared by reference. *)
Record World := {
  dicts : gmap loc (gmap string Value);
  templates : gmap loc TemplateObject;
  symbol_spaces : gmap loc (gmap string loc)
}.

(** The execution context: the one attribute read here. *)
Record Context := {
  symbol_space : loc
}.

(** The object location (layer and offset). *)
Record ObjectInformation := {
  layer_name : string;
  offset : Z
}.

(** Modelled from the spec: the bound Object ("owns a reference to an
    execution context, a Layer+offset, and the parameters inherited from its
    Template"); its class in volatility.framework.objects is missing. *)
Record Object := {
  object_class_name : string;
  object_context : Context;
  object_location : ObjectInformation;
  object_parameters : gmap string Value
}.

(** Modelled from the spec: the Object capability contract
    (interfaces.objects.ObjectInterface is missing): "size computation from
    a template's parameters, child-template enumeration,
    relative-child-offset computation, in-place child replacement, and a
    constructor accepting (execution context, object-location, template
    parameters minus the implementation selector)".  The class methods get
    the parameters of the template they are called on;
    [_template_replace_child] answers with the entries it stores back
    through [update_volinfo]; [construct] stands for the whole call
    [cls(context = .., object_info = .., **arguments)]. *)
Record ObjectClass := {
  _template_size : gmap string Value -> Result Z;
  _template_children : gmap string Value -> Result (list loc);
  _template_relative_child_offset : gmap string Value -> loc -> Result Z;
  _template_replace_child :
    gmap string Value -> loc -> loc -> Result (gmap string Value);
  construct :
    Context -> ObjectInformation -> gmap string Value -> Result Object
}.

(** *** Computations on the heap that may raise *)

Definition M (A : Type) : Type := World -> Result A * World.

Definition ret {A} (a : A) : M A := fun w => (Ok a, w).
Definition raise {A} (e : Error) : M A := fun w => (Raise e, w).
Definition bind {A B} (c : M A) (k : A -> M B) : M B :=
  fun w =>
    match c w with
    | (Ok a, w') => k a w'
    | (Raise e, w') => (Raise e, w')
    end.
Definition lift {A} (r : Result A) : M A := fun w => (r, w).

Notation "x <~ c ;; k" := (bind c (fun x => k))
  (at level 100, c at next level, right associativity).

(** [{}]: a new, empty dictionary. *)
Definition new_dict : M loc := fun w =>
  let l := fresh (dom (dicts w)) in
  (Ok l, {| dicts := <[l := ∅]> (dicts w);
            templates := templates w;
            symbol_spaces := symbol_spaces w |}).

Definition read_dict (d : loc) : M (gmap string Value) := fun w =>
  match dicts w !! d with
  | Some m => (Ok m, w)
  | None => (Raise InvalidReference, w)
  end.

Definition write_dict (d : loc) (m : gmap string Value) : M unit := fun w =>
  (Ok tt, {| dicts := <[d := m]> (dicts w);
             templates := templates w;
             symbol_spaces := symbol_spaces w |}).

(** [d.update(other)]: the entries of [other] win. *)
Definition dict_update (d : loc) (other : gmap string Value) : M unit :=
  m <~ read_dict d ;;
  write_dict d (other ∪ m).

(** [del d[key]]. *)
Definition dict_delitem (d : loc) (key : string) : M unit :=
  m <~ read_dict d ;;
  match m !! key with
  | Some _ => write_dict d (delete key m)
  | None => raise (KeyError key)
  end.

(** Attribute access on a [volinfo] mapping. *)
Definition getattr (vol : gmap string Value) (name : string) : M Value :=
  match vol !! name with
  | Some v => ret v
  | None => raise (AttributeError name)
  end.

(** Modelled from the spec: interfaces.objects.Template is missing.  A
    template carries [structure_name] and its parameters in one mapping
    ([self.volinfo.structure_name] is read by ReferenceTemplate); creating
    the object and running [Template.__init__] are one step here. *)
Definition Template_new (v : Variant) (structure_name : Value)
    (arguments : gmap string Value) : M loc :=
  d <~ new_dict ;;
  _ <~ write_dict d (<["structure_name" := structure_name]> arguments) ;;
  fun w =>
    let t := fresh (dom (templates w)) in
    (Ok t, {| dicts := dicts w;
              templates := <[t := {| variant := v; arguments_of := d |}]>
                             (templates w);
              symbol_spaces := symbol_spaces w |}).

(** Modelled from the spec: the [volinfo] property of the missing
    interfaces.objects.Template, a view of the template's parameters. *)
Definition volinfo (self : loc) : M (gmap string Value) := fun w =>
  match templates w !! self with
  | Some obj => read_dict (arguments_of obj) w
  | None => (Raise InvalidReference, w)
  end.

(** Modelled from the spec: [update_volinfo], called with the keyword
    arguments [newargs], of the missing interfaces.objects.Template, an
    explicit mutation of the parameters in place. *)
Definition update_volinfo (self : loc) (newargs : gmap string Value)
    : M unit := fun w =>
  match templates w !! self with
  | Some obj => dict_update (arguments_of obj) newargs w
  | None => (Raise InvalidReference, w)
  end.

(** Modelled from the spec: [get_structure] of the missing symbol space:
    "resolves [table!structure]; fails with a not found error if the table
    or the structure name is absent".  The space is keyed by the qualified
    name. *)
Definition get_structure (space : loc) (name : Value) : M loc := fun w =>
  match symbol_spaces w !! space with
  | Some tbl =>
      match name with
      | VStr n =>
          match tbl !! n with
          | Some t => (Ok t, w)
          | None => (Raise (LookupError n), w)
          end
      | _ => (Raise TypeError, w)
      end
  | None => (Raise InvalidReference, w)
  end.

(** Modelled from the spec: "registering a structure under a name" in a
    symbol space (the symbol space class is missing); an entry already
    under that name is replaced. *)
Definition register (space : loc) (n : string) (t : loc) : M unit := fun w =>
  match symbol_spaces w !! space with
  | Some tbl =>
      (Ok tt, {| dicts := dicts w;
                 templates := templates w;
                 symbol_spaces := <[space := <[n := t]> tbl]>
                                    (symbol_spaces w) |})
  | None => (Raise InvalidReference, w)
  end.

Section Engine.

(** The loaded classes: which class names denote implementations of the
    Object capability contract, and their methods. *)
Variable implementation : string -> option ObjectClass.

(** Modelled from the spec: [_class_check] of the missing
    validity.ValidityRoutines: "fails with a validation error if
    object_kind is missing or does not satisfy the Object capability
    contract". *)
Definition _class_check (object_class : Value) : M unit :=
  match object_class with
  | VClass c =>
      match implementation c with
      | Some _ => ret tt
      | None => raise ValidationError
      end
  | _ => raise ValidationError
  end.

(** The class behind a value used as [object_class]. *)
Definition as_object_class (v : Value) : M ObjectClass :=
  match v with
  | VClass c =>
      match implementation c with
      | Some impl => ret impl
      | None => raise TypeError
      end
  | _ => raise TypeError
  end.

(** [ObjectTemplate(object_class, structure_name, **arguments)],
    lines 20-25. *)
Definition ObjectTemplate_new (object_class structure_name : Value)
    (arguments : gmap string Value) : M loc :=
  self <~ Template_new Direct structure_name arguments ;;
  _ <~ _class_check object_class ;;
  _ <~ update_volinfo self {["object_class" := object_class]} ;;
  ret self.

(** [ReferenceTemplate(structure_name, **arguments)]: the class defines no
    [__init__] of its own. *)
Definition ReferenceTemplate_new (structure_name : Value)
    (arguments : gmap string Value) : M loc :=
  Template_new Reference structure_name arguments.

(** [self.volinfo.object_class], as the class it denotes. *)
Definition object_class_of (self : loc)
    : M (gmap string Value * ObjectClass) :=
  vol <~ volinfo self ;;
  cls <~ getattr vol "object_class" ;;
  impl <~ as_object_class cls ;;
  ret (vol, impl).





(** [ObjectTemplate.__call__], lines 54-66. *)
Definition ObjectTemplate_call (self : loc) (context : Context)
    (object_info : ObjectInformation) : M Object :=
  arguments <~ new_dict ;;
  vol <~ volinfo self ;;
  _ <~ dict_update arguments vol ;;
  _ <~ dict_delitem arguments "object_class" ;;
  vi <~ object_class_of self ;;
  kwargs <~ read_dict arguments ;;
  lift (construct (snd vi) context object_info kwargs).

(** [ReferenceTemplate.__call__], lines 75-77.  [call] is the call of the
    template that the lookup returns, whatever its class. *)
Definition ReferenceTemplate_call
    (call : loc -> Context -> ObjectInformation -> M Object)
    (self : loc) (context : Context) (object_info : ObjectInformation)
    : M Object :=
  vol <~ volinfo self ;;
  name <~ getattr vol "structure_name" ;;
  template <~ get_structure (symbol_space context) name ;;
  call template context object_info.

(** [template(context = .., object_info = ..)]: dispatch on the class of
    the template.  [depth] is the interpreter's recursion limit. *)
Fixpoint Template_call (depth : nat) (self : loc) (context : Context)
    (object_info : ObjectInformation) : M Object :=
  match depth with
  | O => raise RecursionError
  | S depth' => fun w =>
      match templates w !! self with
      | Some obj =>
          match variant obj with
          | Direct => ObjectTemplate_call self context object_info w
          | Reference =>
              ReferenceTemplate_call (Template_call depth')
                self context object_info w
          end
      | None => (Raise InvalidReference, w)
      end
  end.

(** A run of constructions on one template, one after the other. *)
Fixpoint construct_many (self : loc)
    (calls : list (Context * ObjectInformation)) (w : World) : World :=
  match calls with
  | [] => w
  | (context, object_info) :: calls' =>
      construct_many self calls'
        (snd (ObjectTemplate_call self context object_info w))
  end.

End Engine.

(** *** Two object implementations *)

(** The [members] parameter of a structure: name, relative offset and
    template of each member, in declaration order. *)
Definition members_of (vol : gmap string Value)
    : list (string * (Z * loc)) :=
  match vol !! "members" with
  | Some (VMembers ms) => ms
  | _ => []
  end.

Definition member_template (m : string * (Z * loc)) : loc := snd (snd m).
Definition member_offset (m : string * (Z * loc)) : Z := fst (snd m).

(** Substituting [new_child] for [old_child] in one member. *)
Definition substitute_member (old_child new_child : loc)
    (m : string * (Z * loc)) : string * (Z * loc) :=
  if decide (member_template m = old_child)
  then (fst m, (member_offset m, new_child))
  else m.

(** The offset of the first member whose template is [child]. *)
Fixpoint find_member_offset (ms : list (string * (Z * loc))) (child : loc)
    : Result Z :=
  match ms with
  | [] => Raise ChildNotFoundException
  | m :: ms' =>
      if decide (member_template m = child)
      then Ok (member_offset m)
      else find_member_offset ms' child
  end.

Definition size_parameter (vol : gmap string Value) : Result Z :=
  match vol !! "size" with
  | Some (VInt z) => Ok z
  | _ => Raise TypeError
  end.

Definition bound_object (name : string) (context : Context)
    (object_info : ObjectInformation) (kwargs : gmap string Value)
    : Result Object :=
  Ok {| object_class_name := name;
        object_context := context;
        object_location := object_info;
        object_parameters := kwargs |}.

(** Modelled from the spec: an implementation for base/scalar types (the
    classes of volatility.framework.objects are missing): "fixed base-type
    width", children "empty for scalar/base types", relative child offset
    "fails with a not supported error if the concrete object implementation
    does not define nested layout". *)
Definition scalar_class (name : string) : ObjectClass := {|
  _template_size := size_parameter;
  _template_children := fun _ => Ok [];
  _template_relative_child_offset := fun _ _ => Raise NotImplementedError;
  _template_replace_child := fun _ _ _ => Ok ∅;
  construct := bound_object name
|}.

(** Modelled from the spec: an implementation for composite types (the
    classes of volatility.framework.objects are missing): children are "the
    nested member templates in declaration order"; the relative child offset
    is the "offset of child within the template's own layout" and "fails
    with a child not found error if child is not among children(template)";
    child replacement is "substituting new_child for old_child" in the
    child list. *)
Definition composite_class (name : string) : ObjectClass := {|
  _template_size := size_parameter;
  _template_children := fun vol => Ok (map member_template (members_of vol));
  _template_relative_child_offset := fun vol child =>
    find_member_offset (members_of vol) child;
  _template_replace_child := fun vol old_child new_child =>
    match vol !! "members" with
    | Some (VMembers ms) =>
        Ok {["members" :=
               VMembers (map (substitute_member old_child new_child) ms)]}
    | _ => Ok ∅
    end;
  construct := bound_object name
|}.

(** A class table with one class of each sort and nothing else. *)
Definition sample_classes (name : string) : option ObjectClass :=
  if String.eqb name "Struct" then Some (composite_class name)
  else if String.eqb name "Integer" then Some (scalar_class name)
  else None.

Definition empty_world : World :=
  {| dicts := ∅; templates := ∅; symbol_spaces := ∅ |}.

(** *** Vocabulary for the properties *)

(** [self] is a template object of class [v] whose parameters are [vol]. *)
Definition has_parameters (w : World) (self : loc) (v : Variant)
    (vol : gmap string Value) : Prop :=
  exists obj,
    templates w !! self = Some obj /\
    variant obj = v /\
    dicts w !! arguments_of obj = Some vol.

(** [v] is a class that implements the Object capability contract. *)
Definition satisfies_contract (implementation : string -> option ObjectClass)
    (v : Value) : Prop :=
  exists c impl, v = VClass c /\ implementation c = Some impl.

(** [self] is an ObjectTemplate as [ObjectTemplate.__init__] leaves it: its
    parameters [vol] hold an [object_class] that passed the check, [impl]. *)
Definition direct_template (implementation : string -> option ObjectClass)
    (w : World) (self : loc) (vol : gmap string Value) (impl : ObjectClass)
    : Prop :=
  has_parameters w self Direct vol /\
  exists c, vol !! "object_class" = Some (VClass c) /\
            implementation c = Some impl.

(** [self] is a ReferenceTemplate that names the structure [n]. *)
Definition reference_template (w : World) (self : loc) (n : string) : Prop :=
  exists vol,
    has_parameters w self Reference vol /\
    vol !! "structure_name" = Some (VStr n).


(** Everything that was in [w] is unchanged in [w']: the same templates and
    symbol spaces, and every dictionary of [w] with the same entries. *)
Definition preserves (w w' : World) : Prop :=
  templates w' = templates w /\
  symbol_spaces w' = symbol_spaces w /\
  forall d (m : gmap string Value),
    dicts w !! d = Some m -> dicts w' !! d = Some m.

(** Everything that was in [w] is unchanged in [w'], which may hold new
    templates and dictionaries besides. *)
Definition extends (w w' : World) : Prop :=
  (forall t obj, templates w !! t = Some obj -> templates w' !! t = Some obj) /\
  symbol_spaces w' = symbol_spaces w /\
  forall d (m : gmap string Value),
    dicts w !! d = Some m -> dicts w' !! d = Some m.

(** The computation [c] writes to no object but the dictionary at [l]. *)
Definition writes_only (l : loc) {A : Type} (c : M A) : Prop :=
  forall w,
    templates (snd (c w)) = templates w /\
    symbol_spaces (snd (c w)) = symbol_spaces w /\
    forall d, d <> l -> dicts (snd (c w)) !! d = dicts w !! d.

Definition after_call (w : World) (vol : gmap string Value) : World :=
  {| dicts := <[fresh (dom (dicts w)) := delete "object_class" vol]> (dicts w);
     templates := templates w;
     symbol_spaces := symbol_spaces w |}.




(** Three templates: two scalars, [int] at address 0 and [long] at
    address 1, and a structure at address 2 whose members are one of
    each. *)
Definition sample_world : World :=
  let w0 := snd (ObjectTemplate_new sample_classes (VClass "Integer")
                   (VStr "int") {[ "size" := VInt 4 ]} empty_world) in
  let w1 := snd (ObjectTemplate_new sample_classes (VClass "Integer")
                   (VStr "long") {[ "size" := VInt 4 ]} w0) in
  snd (ObjectTemplate_new sample_classes (VClass "Struct") (VStr "pair")
         {[ "size" := VInt 8;
            "members" := VMembers [("first", (0, 0%nat));
                                   ("second", (4, 1%nat))] ]} w1).


Definition sample_pair_parameters : gmap string Value :=
  <["object_class" := VClass "Struct"]>
    (<["structure_name" := VStr "pair"]>
       {[ "size" := VInt 8;
          "members" := VMembers [("first", (0, 0%nat));
                                 ("second", (4, 1%nat))] ]}).

(** The same world with a ReferenceTemplate to [pair] at address 3 and an
    empty symbol space at address 0. *)
Definition sample_reference_world : World :=
  let w := snd (ReferenceTemplate_new (VStr "pair") ∅ sample_world) in
  {| dicts := dicts w;
     templates := templates w;
     symbol_spaces := {[ 0%nat := ∅ ]} |}.

Definition sample_context : Context := {| symbol_space := 0%nat |}.


Definition sample_cyclic_world : World :=
  snd (register 0%nat "pair" 3%nat sample_reference_world).

Definition sample_location : ObjectInformation :=
  {| layer_name := "primary"; offset := 4096 |}.

End Templates.

(** ** Part III: the rule text of VadYaraScan (vadyarascan.py, [_generator]) *)

Module VadYaraScan.

(** Values a configuration entry can hold. *)
Inductive ConfigValue : Type :=
| CNone
| CBool (b : bool)
| CInt (z : Z)
| CStr (s : string).

Inductive RequirementKind : Type :=
| TranslationLayerRequirement
| SymbolRequirement
| BooleanRequirement
| StringRequirement
| URIRequirement
| IntRequirement.

Record Requirement := {
  kind : RequirementKind;
  name : string;
  description : string;
  default : ConfigValue;
  optional : bool
}.

(** [get_requirements], lines 21-53. *)
Definition get_requirements : list Requirement :=
  [ {| kind := TranslationLayerRequirement; name := "primary";
       description := "Primary kernel address space";
       default := CNone; optional := false |};
    {| kind := SymbolRequirement; name := "nt_symbols";
       description := "Windows OS";
       default := CNone; optional := false |};
    {| kind := BooleanRequirement; name := "all";
       description := "Scan both process and kernel memory";
       default := CBool false; optional := true |};
    {| kind := BooleanRequirement; name := "insensitive";
       description := "Makes the search case insensitive";
       default := CBool false; optional := true |};
    {| kind := BooleanRequirement; name := "kernel";
       description := "Scan kernel modules";
       default := CBool false; optional := true |};
    {| kind := BooleanRequirement; name := "wide";
       description := "Match wide (unicode) strings";
       default := CBool false; optional := true |};
    {| kind := StringRequirement; name := "yara_rules";
       description := "Yara rules (as a string)";
       default := CNone; optional := true |};
    {| kind := URIRequirement; name := "yara_file";
       description := "Yara rules (as a file)";
       default := CNone; optional := true |};
    {| kind := IntRequirement; name := "max_size";
       description := "Set the maximum size (default is 1GB)";
       default := CInt 1073741824; optional := true |} ].

Definition declared_names : list string := map name get_requirements.

Inductive Error : Type := IndexError | TypeError.

(** What [_generator] hands to [yara.compile], lines 67-71. *)
Inductive Rules : Type :=
| CompileSources (source : string)   (* sources = {'n': source} *)
| CompileFile (uri : ConfigValue)
| NoRules.

(** [config.get(key, default)]. *)
Definition config_get (config : gmap string ConfigValue) (key : string)
    (default : ConfigValue) : ConfigValue :=
  match config !! key with
  | Some v => v
  | None => default
  end.

(** Truth value of a Python object in an [if]. *)
Definition truthy (v : ConfigValue) : bool :=
  match v with
  | CNone => false
  | CBool b => b
  | CInt z => negb (z =? 0)
  | CStr s => negb (String.eqb s EmptyString)
  end.

Definition quote_char : ascii := "034"%char.

(** ['"{}"'.format(rule)]. *)
Definition quoted (rule : string) : string :=
  String quote_char (rule +:+ String quote_char EmptyString).

(** ['rule r1 {{strings: $a = {} condition: $a}}'.format(rule)]. *)
Definition rule_source (rule : string) : string :=
  "rule r1 {strings: $a = " +:+ rule +:+ " condition: $a}".

(** [rule[0] not in ["{", "/"]]. *)
Definition needs_quotes (first : ascii) : bool :=
  negb (Ascii.eqb first "{"%char || Ascii.eqb first "/"%char).

(** Lines 58-71 of [_generator]: the rules that get compiled. *)
Definition build_rules (config : gmap string ConfigValue)
    : Error + Rules :=
  match config_get config "yara_rules" CNone with
  | CNone =>
      match config_get config "yara_file" CNone with
      | CNone => inr NoRules
      | uri => inr (CompileFile uri)
      end
  | CStr EmptyString => inl IndexError
  | CStr (String first _ as rule) =>
      let rule := if needs_quotes first then quoted rule else rule in
      let rule :=
        if truthy (config_get config "case" (CBool false))
        then rule +:+ " nocase" else rule in
      let rule :=
        if truthy (config_get config "wide" (CBool false))
        then rule +:+ " wide ascii" else rule in
      inr (CompileSources (rule_source rule))
  | _ => inl TypeError
  end.

(** Line 73 of [_generator]: the list handed to
    [pslist.PsList.create_filter]. *)
Definition process_filter_pids (config : gmap string ConfigValue)
    : list ConfigValue :=
  [config_get config "pid" CNone].

(** The configuration keys that lines 58-71 read. *)
Definition rule_keys : list string :=
  ["yara_rules"; "yara_file"; "case"; "wide"].

End VadYaraScan.

(** * Properties *)

(** ** The region scanner *)

Module ScannerFacts.
Import Scanner.

Section Region.

Variable scanner : ScannerInterface.
Variable layer_name : string.
Variable end_ : Z.

Local Abbreviation C := (chunk_size scanner).
Local Abbreviation O := (overlap scanner).
Local Abbreviation region_chunks :=
  (Scanner.region_chunks scanner layer_name end_).

(** One turn of the loop. *)
Lemma scan_region_step (fuel : nat) (start : Z) :
  end_ - start > C + O ->
  scan_region (S fuel) scanner layer_name start end_ =
  match scan_region fuel scanner layer_name (start + C) end_ with
  | Some rest => Some (full_chunk scanner layer_name start :: rest)
  | None => None
  end.
Proof.
  intros Hguard. simpl.
  destruct (Z.gtb_spec (end_ - start) (C + O)); [reflexivity | lia].
Qed.

(** Leaving the loop. *)
Lemma scan_region_exit (fuel : nat) (start : Z) :
  end_ - start <= C + O ->
  scan_region fuel scanner layer_name start end_ =
  Some [last_chunk layer_name start end_].
Proof.
  intros Hguard. destruct fuel; simpl;
    destruct (Z.gtb_spec (end_ - start) (C + O)); first [reflexivity | lia].
Qed.

Lemma region_chunks_S (n : nat) (start : Z) :
  region_chunks (S n) start =
  full_chunk scanner layer_name start :: region_chunks n (start + C).
Proof.
  unfold region_chunks. rewrite <- cons_seq, <- seq_shift. simpl.
  rewrite Z.add_0_r. f_equal. f_equal.
  rewrite map_map. apply map_ext. intros i. f_equal. lia.
  f_equal. f_equal. lia.
Qed.

(** Whatever the parameters, a finished run of the loop has the closed
    form, and the guard held exactly for the turns before the last. *)
Lemma scan_region_closed_form (fuel : nat) :
  forall start l,
    scan_region fuel scanner layer_name start end_ = Some l ->
    exists n : nat,
      l = region_chunks n start /\
      (forall i : nat, (i < n)%nat -> end_ - (start + Z.of_nat i * C) > C + O) /\
      end_ - (start + Z.of_nat n * C) <= C + O.
Proof.
  induction fuel as [|fuel IH]; intros start l Hrun.
  - simpl in Hrun.
    destruct (Z.gtb_spec (end_ - start) (C + O)); [discriminate|].
    inversion Hrun; subst. exists 0%nat. split; [|split].
    + unfold region_chunks. simpl. do 2 f_equal. lia.
    + intros i Hi. lia.
    + simpl. lia.
  - destruct (Z_gt_le_dec (end_ - start) (C + O)) as [Hg|Hg].
    + rewrite scan_region_step in Hrun by assumption.
      destruct (scan_region fuel scanner layer_name (start + C) end_)
        as [rest|] eqn:Hrest; [|discriminate].
      inversion Hrun; subst.
      destruct (IH _ _ Hrest) as (n & -> & Hbefore & Hlast).
      exists (S n). split; [|split].
      * symmetry. apply region_chunks_S.
      * intros [|i] Hi.
        -- simpl. lia.
        -- specialize (Hbefore i ltac:(lia)). lia.
      * lia.
    + rewrite scan_region_exit in Hrun by assumption.
      inversion Hrun; subst. exists 0%nat. split; [|split].
      * unfold region_chunks. simpl. do 2 f_equal. lia.
      * intros i Hi. lia.
      * simpl. lia.
Qed.

(** More fuel never changes a finished run. *)
Lemma scan_region_more_fuel (fuel : nat) :
  forall extra start l,
    scan_region fuel scanner layer_name start end_ = Some l ->
    scan_region (fuel + extra) scanner layer_name start end_ = Some l.
Proof.
  induction fuel as [|fuel IH]; intros extra start l Hrun.
  - simpl in Hrun.
    destruct (Z.gtb_spec (end_ - start) (C + O)); [discriminate|].
    rewrite scan_region_exit by lia. assumption.
  - destruct (Z_gt_le_dec (end_ - start) (C + O)) as [Hg|Hg].
    + rewrite scan_region_step in Hrun by assumption.
      change (S fuel + extra)%nat with (S (fuel + extra)).
      rewrite scan_region_step by assumption.
      destruct (scan_region fuel scanner layer_name (start + C) end_)
        as [rest|] eqn:Hrest; [|discriminate].
      rewrite (IH extra _ _ Hrest). assumption.
    + rewrite scan_region_exit in Hrun by assumption.
      rewrite scan_region_exit by assumption. assumption.
Qed.

(** Two finished runs of one region agree. *)
Lemma scan_region_deterministic (f1 f2 : nat) (start : Z) l1 l2 :
  scan_region f1 scanner layer_name start end_ = Some l1 ->
  scan_region f2 scanner layer_name start end_ = Some l2 ->
  l1 = l2.
Proof.
  intros H1 H2.
  apply (scan_region_more_fuel _ f2) in H1.
  apply (scan_region_more_fuel _ f1) in H2.
  rewrite (Nat.add_comm f2 f1) in H2. congruence.
Qed.

(** With a positive chunk size the loop ends within [end_ - start] turns. *)
Lemma scan_region_enough_fuel (fuel : nat) :
  forall start,
    0 <= O < C ->
    end_ - start <= Z.of_nat fuel ->
    exists l, scan_region fuel scanner layer_name start end_ = Some l.
Proof.
  induction fuel as [|fuel IH]; intros start Hparams Hfuel.
  - exists [last_chunk layer_name start end_].
    apply scan_region_exit. lia.
  - destruct (Z_gt_le_dec (end_ - start) (C + O)) as [Hg|Hg].
    + rewrite scan_region_step by assumption.
      destruct (IH (start + C) Hparams ltac:(lia)) as [rest ->].
      eauto.
    + rewrite scan_region_exit by assumption. eauto.
Qed.

(** With a chunk size of zero a region longer than the overlap never
    leaves the loop. *)
Lemma scan_region_stuck (fuel : nat) (start : Z) :
  C = 0 ->
  end_ - start > C + O ->
  scan_region fuel scanner layer_name start end_ = None.
Proof.
  intros HC Hg. induction fuel as [|fuel IH].
  - simpl. destruct (Z.gtb_spec (end_ - start) (C + O)); [reflexivity|lia].
  - rewrite scan_region_step by assumption.
    replace (start + C) with start by lia. rewrite IH. reflexivity.
Qed.

(** Reading the closed form by position. *)
Lemma region_chunks_length (n : nat) (start : Z) :
  length (region_chunks n start) = S n.
Proof.
  unfold region_chunks.
  rewrite length_app, length_map, length_seq. simpl. lia.
Qed.

Lemma region_chunks_full (n i : nat) (start : Z) :
  (i < n)%nat ->
  region_chunks n start !! i =
  Some (full_chunk scanner layer_name (start + Z.of_nat i * C)).
Proof.
  intros Hi. unfold region_chunks.
  rewrite lookup_app_l by (rewrite length_map, length_seq; lia).
  change (map ?f ?l) with (f <$> l).
  rewrite list_lookup_fmap, lookup_seq_lt by lia. reflexivity.
Qed.

Lemma region_chunks_last (n : nat) (start : Z) :
  region_chunks n start !! n =
  Some (last_chunk layer_name (start + Z.of_nat n * C) end_).
Proof.
  unfold region_chunks.
  rewrite lookup_app_r by (rewrite length_map, length_seq; lia).
  rewrite length_map, length_seq, Nat.sub_diag. reflexivity.
Qed.

(** The three parts of the boundary law, read off the closed form. *)
Lemma closed_form_count (n : nat) (start : Z) :
  0 <= O < C ->
  (forall i : nat, (i < n)%nat -> end_ - (start + Z.of_nat i * C) > C + O) ->
  end_ - (start + Z.of_nat n * C) <= C + O ->
  Z.of_nat (S n) = expected_chunks (end_ - start) C O.
Proof.
  intros Hparams Hbefore Hlast. unfold expected_chunks.
  destruct (Z.gtb_spec (end_ - start) (C + O)) as [Hlong|Hshort].
  - destruct n as [|n]; [simpl in Hlast; lia|].
    pose proof (Hbefore n ltac:(lia)) as Hprev.
    rewrite Z.max_l by lia. unfold ceil_div.
    rewrite <- (Z.div_unique (- (end_ - start - O)) C (- Z.of_nat (S (S n)))
                  (- (end_ - start - O) + C * Z.of_nat (S (S n)))); lia.
  - destruct n as [|n]; [reflexivity|].
    pose proof (Hbefore 0%nat ltac:(lia)). simpl in *. lia.
Qed.

Lemma closed_form_cover (n : nat) (start x : Z) :
  0 <= O < C ->
  start <= x < end_ ->
  exists v, v ∈ region_chunks n start /\ covers v x.
Proof.
  intros Hparams Hx.
  destruct (Z_lt_le_dec x (start + Z.of_nat n * C)) as [Hin|Hout].
  - pose proof (Z.div_mod (x - start) C ltac:(lia)) as Hdm.
    pose proof (Z.mod_pos_bound (x - start) C ltac:(lia)) as Hmod.
    assert (0 <= (x - start) / C) as Hq by (apply Z.div_pos; lia).
    assert ((x - start) / C < Z.of_nat n) as Hqn by nia.
    exists (full_chunk scanner layer_name
              (start + Z.of_nat (Z.to_nat ((x - start) / C)) * C)).
    split.
    + apply list_elem_of_lookup. exists (Z.to_nat ((x - start) / C)).
      apply region_chunks_full. lia.
    + unfold covers, chunk_hi, chunk_lo, chunk_len, full_chunk. simpl.
      rewrite Z2Nat.id by lia. nia.
  - exists (last_chunk layer_name (start + Z.of_nat n * C) end_). split.
    + apply list_elem_of_lookup. exists n. apply region_chunks_last.
    + unfold covers, chunk_hi, chunk_lo, chunk_len, last_chunk. simpl. lia.
Qed.

Lemma closed_form_overlap (n i : nat) (start : Z) a b :
  0 <= O < C ->
  (forall j : nat, (j < n)%nat -> end_ - (start + Z.of_nat j * C) > C + O) ->
  region_chunks n start !! i = Some a ->
  region_chunks n start !! S i = Some b ->
  common_bytes a b = O.
Proof.
  intros Hparams Hbefore Ha Hb.
  assert (S i < S n)%nat as Hi.
  { rewrite <- (region_chunks_length n start).
    eapply lookup_lt_Some; eassumption. }
  rewrite region_chunks_full in Ha by lia. inversion Ha; subst a.
  pose proof (Hbefore i ltac:(lia)) as Hguard.
  destruct (decide (S i = n)) as [Heq|Hne].
  - subst n. rewrite region_chunks_last in Hb. inversion Hb; subst b.
    unfold common_bytes, chunk_hi, chunk_lo, chunk_len, full_chunk,
      last_chunk. simpl. lia.
  - rewrite region_chunks_full in Hb by lia. inversion Hb; subst b.
    unfold common_bytes, chunk_hi, chunk_lo, chunk_len, full_chunk. simpl.
    lia.
Qed.

End Region.

(** C1. Region Scanner boundary law.  For a scanner with
    [0 <= overlap < chunk_size] and any region [start, end_), the loop of
    [scan_iterator] finishes and yields one list of chunks, the same for
    every sufficient bound on the iterations.  Every chunk but the last is a
    full chunk of length [chunk_size + overlap], yielded while
    [end_ - start > chunk_size + overlap], and the i-th chunk starts at
    [start + i * chunk_size]; the last chunk is the remainder up to [end_].
    The number of chunks is [ceil (max (L - O) 0 / C)] when [L > C + O] and
    [1] otherwise; every address of [start, end_) lies in some chunk; and
    two consecutive chunks share exactly [overlap] bytes. *)
Theorem scan_region_boundary_law
    (scanner : ScannerInterface) (layer_name : string) (start end_ : Z) :
  0 <= overlap scanner < chunk_size scanner ->
  exists l : list IteratorValue,
    scan_region (region_fuel scanner start end_) scanner layer_name
      start end_ = Some l /\
    (forall fuel l',
        scan_region fuel scanner layer_name start end_ = Some l' -> l' = l) /\
    (forall (i : nat) v, l !! i = Some v ->
        let start_i := start + Z.of_nat i * chunk_size scanner in
        if decide (S i < length l)%nat
        then end_ - start_i > chunk_size scanner + overlap scanner /\
             v = full_chunk scanner layer_name start_i /\
             chunk_len v = chunk_size scanner + overlap scanner
        else end_ - start_i <= chunk_size scanner + overlap scanner /\
             v = last_chunk layer_name start_i end_) /\
    Z.of_nat (length l) =
      expected_chunks (end_ - start) (chunk_size scanner) (overlap scanner) /\
    (forall x, start <= x < end_ -> exists v, v ∈ l /\ covers v x) /\
    (forall (i : nat) a b,
        l !! i = Some a -> l !! S i = Some b ->
        common_bytes a b = overlap scanner).
Proof.
  intros Hparams.
  destruct (scan_region_enough_fuel scanner layer_name end_
              (region_fuel scanner start end_) start Hparams)
    as [l Hrun].
  { unfold region_fuel. lia. }
  destruct (scan_region_closed_form _ _ _ _ _ _ Hrun)
    as (n & -> & Hbefore & Hlast).
  eexists. split; [exact Hrun|]. split; [|split; [|split; [|split]]].
  - intros fuel l' Hrun'.
    eapply scan_region_deterministic; eassumption.
  - intros i v Hv. rewrite region_chunks_length. simpl.
    assert (i < S n)%nat as Hi.
    { rewrite <- (region_chunks_length scanner layer_name end_ n start).
      eapply lookup_lt_Some; eassumption. }
    destruct (decide (S i < S n)%nat) as [Hfull|Hend].
    + rewrite region_chunks_full in Hv by lia. inversion Hv; subst v.
      split; [apply Hbefore; lia|]. split; reflexivity.
    + assert (i = n) by lia. subst i.
      rewrite region_chunks_last in Hv. inversion Hv; subst v.
      split; [assumption | reflexivity].
  - rewrite region_chunks_length.
    apply closed_form_count; assumption.
  - intros x Hx. apply closed_form_cover; assumption.
  - intros i a b Ha Hb. eapply closed_form_overlap; eassumption.
Qed.

Lemma scan_region_boundary_law_witness :
  0 <= overlap scanner_400_50 < chunk_size scanner_400_50 /\
  exists l : list IteratorValue,
    scan_region (region_fuel scanner_400_50 0 1000) scanner_400_50
      "layer" 0 1000 = Some l /\
    Z.of_nat (length l) = expected_chunks 1000 400 50.
Proof.
  split; [simpl; lia|].
  destruct (scan_region_boundary_law scanner_400_50 "layer" 0 1000)
    as (l & Hrun & _ & _ & Hcount & _).
  - simpl. lia.
  - exists l. split; [exact Hrun | exact Hcount].
Defined.

(** C8. For a region with [start <= end_] and a scanner with
    [0 <= overlap < chunk_size], the while loop of [scan_iterator]
    terminates: a bound of [end_ - start] iterations is never reached, every
    larger bound gives the same finite list of chunks, and the loop body
    runs [length l - 1] times, each time with the guard true and [start]
    advanced by [chunk_size >= 1]. *)
Theorem scan_region_terminates
    (scanner : ScannerInterface) (layer_name : string) (start end_ : Z) :
  start <= end_ ->
  0 <= overlap scanner < chunk_size scanner ->
  1 <= chunk_size scanner /\
  exists l : list IteratorValue,
    (forall fuel : nat,
        (Z.to_nat (end_ - start) <= fuel)%nat ->
        scan_region fuel scanner layer_name start end_ = Some l) /\
    (length l <= S (Z.to_nat (end_ - start)))%nat /\
    l = region_chunks scanner layer_name end_ (length l - 1) start.
Proof.
  intros Hregion Hparams. split; [lia|].
  destruct (scan_region_enough_fuel scanner layer_name end_
              (Z.to_nat (end_ - start)) start Hparams)
    as [l Hrun]; [lia|].
  exists l. split; [|split].
  - intros fuel Hfuel.
    replace fuel
      with (Z.to_nat (end_ - start) + (fuel - Z.to_nat (end_ - start)))%nat
      by lia.
    apply scan_region_more_fuel. assumption.
  - destruct (scan_region_closed_form _ _ _ _ _ _ Hrun)
      as (n & -> & Hbefore & Hlast).
    rewrite region_chunks_length.
    destruct n as [|n]; [lia|].
    pose proof (Hbefore n ltac:(lia)). nia.
  - destruct (scan_region_closed_form _ _ _ _ _ _ Hrun)
      as (n & -> & Hbefore & Hlast).
    rewrite region_chunks_length. f_equal. lia.
Qed.

Lemma scan_region_terminates_witness :
  0 <= 1000 /\
  0 <= overlap scanner_400_50 < chunk_size scanner_400_50 /\
  exists l : list IteratorValue,
    forall fuel : nat,
      (Z.to_nat (1000 - 0) <= fuel)%nat ->
      scan_region fuel scanner_400_50 "layer" 0 1000 = Some l.
Proof.
  split; [lia|]. split; [simpl; lia|].
  destruct (scan_region_terminates scanner_400_50 "layer" 0 1000)
    as (_ & l & Hrun & _).
  - lia.
  - simpl. lia.
  - exists l. exact Hrun.
Defined.

(** The regions of a traversal are scanned one after the other, each on its
    own. *)
Lemma scan_iterator_app (fuel : nat) (layer_name : string)
    (vads1 vads2 : list Vad) (scanner : ScannerInterface) (lo hi : Z) :
  scan_iterator fuel layer_name (vads1 ++ vads2) scanner lo hi =
  match scan_iterator fuel layer_name vads1 scanner lo hi,
        scan_iterator fuel layer_name vads2 scanner lo hi with
  | Some l1, Some l2 => Some (l1 ++ l2)
  | _, _ => None
  end.
Proof.
  induction vads1 as [|vad vads1 IH]; simpl.
  - destruct (scan_iterator fuel layer_name vads2 scanner lo hi); reflexivity.
  - destruct (scan_region fuel scanner layer_name (get_start vad)
                (get_end vad)) as [chunks|]; [|reflexivity].
    rewrite IH.
    destruct (scan_iterator fuel layer_name vads1 scanner lo hi);
      [|reflexivity].
    destruct (scan_iterator fuel layer_name vads2 scanner lo hi);
      [|reflexivity].
    rewrite app_assoc. reflexivity.
Qed.

(** C6. Concrete scenarios, for every bound on the iterations that is at
    least the number of times the loop body runs: region [0, 1000) with
    chunk_size 400 and overlap 50 yields [0,450), [400,850), [800,1000) in
    that order; region [0, 300) yields the one chunk [0,300); the regions
    [0,100) and [5000,5010) with chunk_size 1000 and overlap 10 yield one
    chunk each, in the order of the traversal, and each yields the same
    chunk when it is scanned alone or in the other order. *)
Theorem scan_iterator_scenarios (fuel : nat) (layer_name : string)
    (min_address max_address : Z) :
  scan_iterator (2 + fuel) layer_name
    [ {| get_start := 0; get_end := 1000 |} ] scanner_400_50
    min_address max_address
  = Some [ ([(layer_name, 0, 450)], 450);
           ([(layer_name, 400, 450)], 850);
           ([(layer_name, 800, 200)], 1000) ] /\
  scan_iterator fuel layer_name
    [ {| get_start := 0; get_end := 300 |} ] scanner_400_50
    min_address max_address
  = Some [ ([(layer_name, 0, 300)], 300) ] /\
  scan_iterator fuel layer_name
    [ {| get_start := 0; get_end := 100 |};
      {| get_start := 5000; get_end := 5010 |} ] scanner_1000_10
    min_address max_address
  = Some [ ([(layer_name, 0, 100)], 100);
           ([(layer_name, 5000, 10)], 5010) ] /\
  scan_iterator fuel layer_name
    [ {| get_start := 5000; get_end := 5010 |};
      {| get_start := 0; get_end := 100 |} ] scanner_1000_10
    min_address max_address
  = Some [ ([(layer_name, 5000, 10)], 5010);
           ([(layer_name, 0, 100)], 100) ] /\
  scan_iterator fuel layer_name
    [ {| get_start := 0; get_end := 100 |} ] scanner_1000_10
    min_address max_address
  = Some [ ([(layer_name, 0, 100)], 100) ] /\
  scan_iterator fuel layer_name
    [ {| get_start := 5000; get_end := 5010 |} ] scanner_1000_10
    min_address max_address
  = Some [ ([(layer_name, 5000, 10)], 5010) ].
Proof.
  repeat split; destruct fuel; reflexivity.
Qed.

End ScannerFacts.

(** ** The rule text of VadYaraScan *)

Module VadYaraScanFacts.
Import VadYaraScan.

(** The keys [build_rules] reads. *)
Lemma build_rules_reads (config1 config2 : gmap string ConfigValue) :
  config1 !! "yara_rules" = config2 !! "yara_rules" ->
  config1 !! "yara_file" = config2 !! "yara_file" ->
  config1 !! "case" = config2 !! "case" ->
  config1 !! "wide" = config2 !! "wide" ->
  build_rules config1 = build_rules config2.
Proof.
  intros Hrules Hfile Hcase Hwide.
  unfold build_rules, config_get.
  rewrite Hrules, Hfile, Hcase, Hwide. reflexivity.
Qed.

Lemma case_not_declared : "case" ∉ declared_names.
Proof.
  unfold declared_names. simpl. intros Hin.
  repeat (apply elem_of_cons in Hin as [Heq|Hin]; [discriminate Heq|]).
  inversion Hin.
Qed.

(** C10. The [insensitive] option has no effect on the rules: the option is
    declared by [get_requirements] while the key [case] that [_generator]
    reads is not; two configurations that differ at most in the value of
    [insensitive] give the same rules; and for a configuration that holds
    declared keys only, the rule text built from [yara_rules] is the
    (quoted) rule followed at most by [ wide ascii], with no [ nocase]. *)
Theorem insensitive_has_no_effect :
  ("insensitive" ∈ declared_names) /\
  ("case" ∉ declared_names) /\
  (forall config1 config2 : gmap string ConfigValue,
      (forall key, key <> "insensitive" -> config1 !! key = config2 !! key) ->
      build_rules config1 = build_rules config2) /\
  (forall (config : gmap string ConfigValue) (first : ascii) (rest : string),
      (forall key, is_Some (config !! key) -> key ∈ declared_names) ->
      config !! "yara_rules" = Some (CStr (String first rest)) ->
      let rule := String first rest in
      let rule := if needs_quotes first then quoted rule else rule in
      let rule :=
        if truthy (config_get config "wide" (CBool false))
        then rule +:+ " wide ascii" else rule in
      build_rules config = inr (CompileSources (rule_source rule))).
Proof.
  split; [|split; [exact case_not_declared|split]].
  - unfold declared_names. simpl. repeat constructor.
  - intros config1 config2 Hsame.
    apply build_rules_reads; apply Hsame; discriminate.
  - intros config first rest Hdeclared Hrules rule0 rule1 rule2.
    subst rule0 rule1 rule2.
    assert (config !! "case" = None) as Hcase.
    { destruct (config !! "case") eqn:Hc; [|reflexivity].
      exfalso. apply case_not_declared. apply Hdeclared. eauto. }
    unfold build_rules, config_get. rewrite Hrules, Hcase.
    reflexivity.
Qed.

Lemma insensitive_has_no_effect_witness :
  build_rules {[ "yara_rules" := CStr "evil"; "insensitive" := CBool true ]}
  = build_rules {[ "yara_rules" := CStr "evil"; "insensitive" := CBool false ]}.
Proof.
  apply (proj1 (proj2 (proj2 insensitive_has_no_effect))).
  intros key Hkey.
  destruct (decide (key = "yara_rules")) as [->|Hother].
  - rewrite !lookup_insert_eq. reflexivity.
  - rewrite !lookup_insert_ne by congruence.
    rewrite !lookup_singleton_ne by congruence. reflexivity.
Defined.

End VadYaraScanFacts.

(** ** The template engine *)

Module TemplateFacts.
Import Templates.

Section Engine.

Variable implementation : string -> option ObjectClass.

Lemma volinfo_has_parameters w self v vol :
  has_parameters w self v vol -> volinfo self w = (Ok vol, w).
Proof.
  intros (obj & Hobj & _ & Hdict).
  unfold volinfo, read_dict. rewrite Hobj, Hdict. reflexivity.
Qed.

(** A dictionary that exists is not the one [new_dict] makes. *)
Lemma fresh_dict_ne w d (m : gmap string Value) :
  dicts w !! d = Some m -> fresh (dom (dicts w)) <> d.
Proof.
  intros Hd Heq. apply (is_fresh (dom (dicts w))).
  rewrite Heq. apply elem_of_dom. eauto.
Qed.

Lemma object_class_of_direct w self vol impl :
  direct_template implementation w self vol impl ->
  object_class_of implementation self w = (Ok (vol, impl), w).
Proof.
  intros (Hpar & c & Hcls & Himpl).
  unfold object_class_of, bind.
  rewrite (volinfo_has_parameters _ _ _ _ Hpar).
  unfold getattr. rewrite Hcls. unfold ret, as_object_class.
  rewrite Himpl. reflexivity.
Qed.

(** What a construction returns and what it leaves behind. *)
Lemma ObjectTemplate_call_direct w self vol impl context object_info :
  direct_template implementation w self vol impl ->
  ObjectTemplate_call implementation self context object_info w =
  (construct impl context object_info (delete "object_class" vol),
   after_call w vol).
Proof.
  intros Hdirect.
  pose proof Hdirect as (Hpar & c & Hcls & Himpl).
  pose proof Hpar as (obj & Hobj & Hvariant & Hdict).
  pose proof (fresh_dict_ne _ _ _ Hdict) as Hfresh.
  unfold ObjectTemplate_call, bind at 1, new_dict.
  set (l := fresh (dom (dicts w))) in *.
  set (w1 := {| dicts := <[l:=∅]> (dicts w);
                templates := templates w;
                symbol_spaces := symbol_spaces w |}).
  assert (has_parameters w1 self Direct vol) as Hpar1.
  { exists obj. simpl. rewrite lookup_insert_ne by assumption. auto. }
  unfold bind at 1. rewrite (volinfo_has_parameters _ _ _ _ Hpar1).
  unfold bind at 1, dict_update, bind at 1, read_dict at 1. simpl.
  rewrite lookup_insert_eq. unfold write_dict at 1. simpl.
  rewrite insert_insert_eq, (right_id_L ∅ (∪)).
  unfold bind at 1, dict_delitem, bind at 1, read_dict at 1. simpl.
  rewrite lookup_insert_eq, Hcls. unfold write_dict. simpl.
  rewrite insert_insert_eq.
  set (w2 := {| dicts := <[l:=delete "object_class" vol]> (dicts w);
                templates := templates w;
                symbol_spaces := symbol_spaces w |}).
  assert (direct_template implementation w2 self vol impl) as Hdirect2.
  { split; [|eauto]. exists obj. simpl.
    rewrite lookup_insert_ne by assumption. auto. }
  unfold bind at 1. rewrite (object_class_of_direct _ _ _ _ Hdirect2).
  unfold bind, read_dict. simpl. rewrite lookup_insert_eq.
  reflexivity.
Qed.

(** A construction leaves every template as it found it. *)
Lemma after_call_has_parameters w vol0 self v vol :
  has_parameters w self v vol ->
  has_parameters (after_call w vol0) self v vol.
Proof.
  intros (obj & Hobj & Hvariant & Hdict). exists obj. simpl.
  rewrite lookup_insert_ne by (eapply fresh_dict_ne; eassumption). auto.
Qed.

Lemma after_call_direct w vol0 self vol impl :
  direct_template implementation w self vol impl ->
  direct_template implementation (after_call w vol0) self vol impl.
Proof.
  intros (Hpar & Hcls). split; [|assumption].
  apply after_call_has_parameters. assumption.
Qed.

Lemma after_call_dicts w vol0 d (m : gmap string Value) :
  dicts w !! d = Some m -> dicts (after_call w vol0) !! d = Some m.
Proof.
  intros Hd. simpl.
  rewrite lookup_insert_ne by (eapply fresh_dict_ne; eassumption).
  assumption.
Qed.

Lemma construct_many_direct calls :
  forall w self vol impl,
    direct_template implementation w self vol impl ->
    let w' := construct_many implementation self calls w in
    direct_template implementation w' self vol impl /\
    templates w' = templates w /\
    symbol_spaces w' = symbol_spaces w /\
    (forall d (m : gmap string Value),
        dicts w !! d = Some m -> dicts w' !! d = Some m).
Proof.
  induction calls as [|[context object_info] calls IH];
    intros w self vol impl Hdirect; simpl.
  - auto.
  - rewrite (ObjectTemplate_call_direct _ _ _ _ _ _ Hdirect). simpl.
    destruct (IH _ _ _ _ (after_call_direct w vol _ _ _ Hdirect))
      as (Hdirect' & Htemplates & Hspaces & Hdicts).
    split; [assumption|]. split; [assumption|]. split; [assumption|].
    intros d m Hd. apply Hdicts. apply after_call_dicts. assumption.
Qed.

Lemma satisfies_contract_dec (v : Value) :
  satisfies_contract implementation v \/
  ~ satisfies_contract implementation v.
Proof.
  destruct v as [| | | |c| |];
    try (right; intros (c' & impl & Heq & _); discriminate Heq).
  destruct (implementation c) as [impl|] eqn:Himpl.
  - left. exists c, impl. auto.
  - right. intros (c' & impl & Heq & Himpl'). inversion Heq; subst.
    congruence.
Qed.

(** What [ObjectTemplate(...)] builds when the check passes. *)
Lemma ObjectTemplate_new_ok c impl structure_name arguments w :
  implementation c = Some impl ->
  ObjectTemplate_new implementation (VClass c) structure_name arguments w =
  (Ok (fresh (dom (templates w))),
   {| dicts :=
        <[fresh (dom (dicts w)) :=
            <["object_class" := VClass c]>
              (<["structure_name" := structure_name]> arguments)]> (dicts w);
      templates :=
        <[fresh (dom (templates w)) :=
            {| variant := Direct; arguments_of := fresh (dom (dicts w)) |}]>
          (templates w);
      symbol_spaces := symbol_spaces w |}).
Proof.
  intros Himpl.
  unfold ObjectTemplate_new, Template_new, bind, new_dict, write_dict,
    _class_check, update_volinfo, dict_update, bind, read_dict, write_dict,
    ret.
  simpl. rewrite Himpl. simpl.
  rewrite !lookup_insert_eq. simpl.
  rewrite !insert_insert_eq, <- insert_union_singleton_l. reflexivity.
Qed.

(** ... and when it does not. *)
Lemma ObjectTemplate_new_invalid object_class structure_name arguments w :
  ~ satisfies_contract implementation object_class ->
  fst (ObjectTemplate_new implementation object_class structure_name
         arguments w) = Raise ValidationError.
Proof.
  intros Hbad.
  unfold ObjectTemplate_new, Template_new, bind, new_dict, write_dict,
    _class_check, raise.
  simpl. destruct object_class as [| | | |c| |]; try reflexivity.
  destruct (implementation c) as [impl|] eqn:Himpl; [|reflexivity].
  exfalso. apply Hbad. exists c, impl. auto.
Qed.

Lemma ObjectTemplate_new_built object_class structure_name arguments w
    self w' :
  ObjectTemplate_new implementation object_class structure_name arguments w
    = (Ok self, w') ->
  exists c impl,
    object_class = VClass c /\
    implementation c = Some impl /\
    direct_template implementation w' self
      (<["object_class" := object_class]>
         (<["structure_name" := structure_name]> arguments)) impl.
Proof.
  intros Hnew.
  destruct (satisfies_contract_dec object_class)
    as [(c & impl & -> & Himpl)|Hno].
  2: { pose proof (ObjectTemplate_new_invalid _ structure_name arguments w
                     Hno) as Hbad.
       rewrite Hnew in Hbad. discriminate. }
  rewrite (ObjectTemplate_new_ok _ _ _ _ _ Himpl) in Hnew.
  inversion Hnew; subst. exists c, impl. split; [reflexivity|].
  split; [assumption|]. split.
  - eexists. simpl. rewrite lookup_insert_eq. split; [reflexivity|].
    split; [reflexivity|]. simpl. rewrite lookup_insert_eq. reflexivity.
  - exists c. rewrite lookup_insert_eq. auto.
Qed.

(** C3. Building an ObjectTemplate with an object implementation that is
    missing ([None]) or does not satisfy the Object capability contract
    fails with a validation error, in [__init__].  For a template that was
    built, after any number of constructions a construction returns what
    the implementation's own constructor returns on the forwarded
    parameters: [__call__] runs no capability check and adds no error of
    its own, so it raises a validation error only if that constructor
    does. *)
Theorem capability_checked_at_build
    (object_class structure_name : Value) (arguments : gmap string Value)
    (w : World) :
  (~ satisfies_contract implementation object_class ->
   fst (ObjectTemplate_new implementation object_class structure_name
          arguments w) = Raise ValidationError) /\
  fst (ObjectTemplate_new implementation VNone structure_name arguments w)
    = Raise ValidationError /\
  (forall self w',
      ObjectTemplate_new implementation object_class structure_name
        arguments w = (Ok self, w') ->
      satisfies_contract implementation object_class /\
      exists vol impl,
        direct_template implementation w' self vol impl /\
        forall calls context object_info,
          let w'' := construct_many implementation self calls w' in
          fst (ObjectTemplate_call implementation self context object_info
                 w'')
            = construct impl context object_info
                (delete "object_class" vol) /\
          (construct impl context object_info (delete "object_class" vol)
             <> Raise ValidationError ->
           fst (ObjectTemplate_call implementation self context object_info
                  w'') <> Raise ValidationError)).
Proof.
  split; [apply ObjectTemplate_new_invalid|]. split.
  - apply ObjectTemplate_new_invalid.
    intros (c & impl & Heq & _). discriminate.
  - intros self w' Hnew.
    destruct (ObjectTemplate_new_built _ _ _ _ _ _ Hnew)
      as (c & impl & -> & Himpl & Hdirect).
    split; [exists c, impl; auto|].
    eexists _, impl. split; [exact Hdirect|].
    intros calls context object_info w''.
    destruct (construct_many_direct calls _ _ _ _ Hdirect)
      as (Hdirect'' & _).
    fold w'' in Hdirect''.
    rewrite (ObjectTemplate_call_direct _ _ _ _ _ _ Hdirect''). simpl.
    split; [reflexivity | auto].
Qed.


(** C9. Constructing from an ObjectTemplate never mutates it.  After any
    number of constructions the template is the same object with the same
    parameters, [object_class] included; no template, symbol space or
    dictionary that existed has changed; each construction only adds one
    dictionary, the copy from which [object_class] was deleted. *)
Theorem call_never_mutates_template
    (w : World) (self : loc) (vol : gmap string Value) (impl : ObjectClass)
    (calls : list (Context * ObjectInformation)) :
  direct_template implementation w self vol impl ->
  let w' := construct_many implementation self calls w in
  direct_template implementation w' self vol impl /\
  volinfo self w' = (Ok vol, w') /\
  is_Some (vol !! "object_class") /\
  templates w' = templates w /\
  symbol_spaces w' = symbol_spaces w /\
  (forall d (m : gmap string Value),
      dicts w !! d = Some m -> dicts w' !! d = Some m) /\
  (forall context object_info,
      let copy := fresh (dom (dicts w')) in
      let w'' := snd (ObjectTemplate_call implementation self context
                        object_info w') in
      dicts w' !! copy = None /\
      dicts w'' = <[copy := delete "object_class" vol]> (dicts w') /\
      templates w'' = templates w' /\
      volinfo self w'' = (Ok vol, w'')).
Proof.
  intros Hdirect w'.
  destruct (construct_many_direct calls _ _ _ _ Hdirect)
    as (Hdirect' & Htemplates & Hspaces & Hdicts).
  fold w' in Hdirect', Htemplates, Hspaces, Hdicts.
  split; [assumption|].
  split; [apply (volinfo_has_parameters _ _ Direct), Hdirect'|].
  split; [destruct Hdirect as (_ & c & -> & _); eauto|].
  split; [assumption|]. split; [assumption|]. split; [assumption|].
  intros context object_info copy w''. subst w''.
  rewrite (ObjectTemplate_call_direct _ _ _ _ _ _ Hdirect'). simpl.
  split; [apply not_elem_of_dom, is_fresh|].
  split; [reflexivity|]. split; [reflexivity|].
  apply (volinfo_has_parameters _ _ Direct).
  apply after_call_has_parameters, Hdirect'.
Qed.

(** *** Deferred references *)

Lemma ReferenceTemplate_call_resolves call w self n context object_info tbl :
  reference_template w self n ->
  symbol_spaces w !! symbol_space context = Some tbl ->
  ReferenceTemplate_call call self context object_info w =
  match tbl !! n with
  | Some template => call template context object_info w
  | None => (Raise (LookupError n), w)
  end.
Proof.
  intros (vol & Hpar & Hname) Hspace.
  unfold ReferenceTemplate_call, bind.
  rewrite (volinfo_has_parameters _ _ _ _ Hpar).
  unfold getattr. rewrite Hname. unfold ret, get_structure.
  rewrite Hspace. destruct (tbl !! n); reflexivity.
Qed.

Lemma register_spec w space n t tbl :
  symbol_spaces w !! space = Some tbl ->
  register space n t w =
  (Ok tt, {| dicts := dicts w;
             templates := templates w;
             symbol_spaces := <[space := <[n := t]> tbl]> (symbol_spaces w) |}).
Proof. intros Hspace. unfold register. rewrite Hspace. reflexivity. Qed.

Lemma Template_call_reference depth w self n context object_info :
  reference_template w self n ->
  Template_call implementation (S depth) self context object_info w =
  ReferenceTemplate_call (Template_call implementation depth)
    self context object_info w.
Proof.
  intros (vol & (obj & Hobj & Hvariant & _) & _). simpl.
  rewrite Hobj, Hvariant. reflexivity.
Qed.

Lemma Template_call_direct depth w self vol impl context object_info :
  direct_template implementation w self vol impl ->
  Template_call implementation (S depth) self context object_info w =
  ObjectTemplate_call implementation self context object_info w.
Proof.
  intros ((obj & Hobj & Hvariant & _) & _). simpl.
  rewrite Hobj, Hvariant. reflexivity.
Qed.

(** C2. A ReferenceTemplate resolves its [structure_name] in the symbol
    space of the context on each construction.  While the name is absent
    the construction fails with a lookup error and leaves the world as it
    was; when the name is present the construction is the construction of
    the template registered under it.  After a failed construction,
    registering a structure under the name makes the next construction the
    construction of that structure (which succeeds when the structure's
    own construction does); and after registering another structure under
    a name already present, the next construction is that of the new
    one. *)
Theorem reference_resolved_on_every_call
    (call : loc -> Context -> ObjectInformation -> M Object)
    (w : World) (self : loc) (n : string) (context : Context)
    (object_info : ObjectInformation) (tbl : gmap string loc) :
  reference_template w self n ->
  symbol_spaces w !! symbol_space context = Some tbl ->
  (tbl !! n = None ->
   ReferenceTemplate_call call self context object_info w
     = (Raise (LookupError n), w)) /\
  (forall t, tbl !! n = Some t ->
   ReferenceTemplate_call call self context object_info w
     = call t context object_info w) /\
  (forall t, tbl !! n = None ->
     let w1 := snd (ReferenceTemplate_call call self context object_info w) in
     let w2 := snd (register (symbol_space context) n t w1) in
     fst (ReferenceTemplate_call call self context object_info w1)
       = Raise (LookupError n) /\
     fst (register (symbol_space context) n t w1) = Ok tt /\
     ReferenceTemplate_call call self context object_info w2
       = call t context object_info w2 /\
     forall volt impl depth,
       direct_template implementation w t volt impl ->
       fst (Template_call implementation (S (S depth)) self context
              object_info w2)
         = construct impl context object_info (delete "object_class" volt)) /\
  (forall t t', tbl !! n = Some t ->
     let w2 := snd (register (symbol_space context) n t' w) in
     ReferenceTemplate_call call self context object_info w2
       = call t' context object_info w2).
Proof.
  intros Href Hspace.
  pose proof (ReferenceTemplate_call_resolves call w self n context
                object_info tbl Href Hspace) as Hcall.
  assert (forall t,
             let w2 := snd (register (symbol_space context) n t w) in
             reference_template w2 self n /\
             symbol_spaces w2 !! symbol_space context
               = Some (<[n := t]> tbl) /\
             forall t0 vol impl,
               direct_template implementation w t0 vol impl ->
               direct_template implementation w2 t0 vol impl) as Hreg.
  { intros t. rewrite (register_spec _ _ _ _ _ Hspace). simpl.
    split; [exact Href|]. split; [apply lookup_insert_eq|]. auto. }
  split; [|split; [|split]].
  - intros Habsent. rewrite Hcall, Habsent. reflexivity.
  - intros t Hpresent. rewrite Hcall, Hpresent. reflexivity.
  - intros t Habsent w1 w2.
    assert (w1 = w) as Hw1 by (unfold w1; rewrite Hcall, Habsent; reflexivity).
    subst w2. rewrite Hw1. clear w1 Hw1.
    destruct (Hreg t) as (Href2 & Hspace2 & Hdirect2).
    split; [rewrite Hcall, Habsent; reflexivity|].
    split; [rewrite (register_spec _ _ _ _ _ Hspace); reflexivity|].
    split.
    + rewrite (ReferenceTemplate_call_resolves call _ self n context
                 object_info _ Href2 Hspace2).
      rewrite lookup_insert_eq. reflexivity.
    + intros volt impl depth Hdirect.
      rewrite (Template_call_reference _ _ _ n) by exact Href2.
      rewrite (ReferenceTemplate_call_resolves _ _ self n context
                 object_info _ Href2 Hspace2).
      rewrite lookup_insert_eq.
      rewrite (Template_call_direct _ _ _ volt impl)
        by (apply Hdirect2; exact Hdirect).
      rewrite (ObjectTemplate_call_direct _ _ _ _ _ _
                 (Hdirect2 _ _ _ Hdirect)).
      reflexivity.
  - intros t t' Hpresent.
    destruct (Hreg t') as (Href2 & Hspace2 & _).
    cbv zeta. rewrite (ReferenceTemplate_call_resolves call _ self n context
                      object_info _ Href2 Hspace2).
    rewrite lookup_insert_eq. reflexivity.
Qed.

(** *** Children and their offsets *)




(** *** Replacing a child *)









End Engine.

(** *** The sample world *)


Lemma sample_pair_direct :
  direct_template sample_classes sample_world 2%nat sample_pair_parameters
    (composite_class "Struct").
Proof.
  split.
  - exists {| variant := Direct; arguments_of := 2%nat |}.
    split; [|split]; vm_compute; exact eq_refl.
  - exists "Struct". split; vm_compute; exact eq_refl.
Qed.

Lemma sample_pair_direct_registered :
  direct_template sample_classes sample_reference_world 2%nat
    sample_pair_parameters (composite_class "Struct").
Proof.
  split.
  - exists {| variant := Direct; arguments_of := 2%nat |}.
    split; [|split]; vm_compute; exact eq_refl.
  - exists "Struct". split; vm_compute; exact eq_refl.
Qed.

Lemma sample_reference :
  reference_template sample_reference_world 3%nat "pair".
Proof.
  exists {[ "structure_name" := VStr "pair" ]}. split.
  - exists {| variant := Reference; arguments_of := 3%nat |}.
    split; [|split]; vm_compute; exact eq_refl.
  - vm_compute. exact eq_refl.
Qed.

Lemma sample_space :
  symbol_spaces sample_reference_world !! symbol_space sample_context
  = Some ∅.
Proof. vm_compute. exact eq_refl. Qed.



Lemma sample_foreign_class :
  ~ satisfies_contract sample_classes (VClass "os.path").
Proof.
  intros (c & impl & Heq & Himpl). inversion Heq; subst.
  vm_compute in Himpl. discriminate Himpl.
Qed.

Lemma sample_int_built :
  ObjectTemplate_new sample_classes (VClass "Integer") (VStr "int")
    {[ "size" := VInt 4 ]} empty_world
  = (Ok 0%nat,
     snd (ObjectTemplate_new sample_classes (VClass "Integer") (VStr "int")
            {[ "size" := VInt 4 ]} empty_world)).
Proof. vm_compute. exact eq_refl. Qed.

Lemma capability_checked_at_build_witness :
  fst (ObjectTemplate_new sample_classes (VClass "os.path") (VStr "int")
         ∅ empty_world) = Raise ValidationError /\
  satisfies_contract sample_classes (VClass "Integer").
Proof.
  split.
  - exact (proj1 (capability_checked_at_build sample_classes
                    (VClass "os.path") (VStr "int") ∅ empty_world)
             sample_foreign_class).
  - exact (proj1 (proj2 (proj2 (capability_checked_at_build sample_classes
                                  (VClass "Integer") (VStr "int")
                                  {[ "size" := VInt 4 ]} empty_world))
                    _ _ sample_int_built)).
Defined.


Lemma call_never_mutates_template_witness :
  let w' := construct_many sample_classes 2%nat
              [(sample_context, sample_location);
               (sample_context, sample_location)] sample_world in
  volinfo 2%nat w' = (Ok sample_pair_parameters, w').
Proof.
  exact (proj1 (proj2 (call_never_mutates_template sample_classes
                         sample_world 2%nat sample_pair_parameters
                         (composite_class "Struct")
                         [(sample_context, sample_location);
                          (sample_context, sample_location)]
                         sample_pair_direct))).
Defined.

Lemma reference_resolved_on_every_call_witness :
  ReferenceTemplate_call (Template_call sample_classes 1) 3%nat
    sample_context sample_location sample_reference_world
  = (Raise (LookupError "pair"), sample_reference_world) /\
  (let w1 := snd (ReferenceTemplate_call (Template_call sample_classes 1)
                    3%nat sample_context sample_location
                    sample_reference_world) in
   let w2 := snd (register (symbol_space sample_context) "pair" 2%nat w1) in
   fst (Template_call sample_classes 2 3%nat sample_context sample_location
          w2)
   = construct (composite_class "Struct") sample_context sample_location
       (delete "object_class" sample_pair_parameters)).
Proof.
  pose proof (reference_resolved_on_every_call sample_classes
                (Template_call sample_classes 1) sample_reference_world
                3%nat "pair" sample_context sample_location ∅
                sample_reference sample_space)
    as (Habsent & _ & Hnext & _).
  split.
  - exact (Habsent (lookup_empty _)).
  - exact (proj2 (proj2 (proj2 (Hnext 2%nat (lookup_empty _))))
             sample_pair_parameters (composite_class "Struct") 0%nat
             sample_pair_direct_registered).
Defined.




End TemplateFacts.

(** * Further properties *)

(** ** The region scanner: windows, bounds, progress, whole traversals *)

Module ScannerExtras.
Import Scanner ScannerFacts.

(** X1. No match is split by a chunk boundary.  With
    [0 <= overlap < chunk_size], every window of at most [overlap + 1]
    bytes that lies in the region [start, end_) lies wholly inside one of
    the chunks the region yields. *)
Theorem window_within_one_chunk
    (scanner : ScannerInterface) (layer_name : string)
    (start end_ x m : Z) :
  0 <= overlap scanner < chunk_size scanner ->
  0 <= m <= overlap scanner + 1 ->
  start <= x ->
  x + m <= end_ ->
  exists l v,
    scan_region (region_fuel scanner start end_) scanner layer_name
      start end_ = Some l /\
    v ∈ l /\
    holds_window v x m.
Proof.
  intros Hparams Hm Hlo Hhi.
  destruct (scan_region_enough_fuel scanner layer_name end_
              (region_fuel scanner start end_) start Hparams)
    as [l Hrun]; [unfold region_fuel; lia|].
  destruct (scan_region_closed_form _ _ _ _ _ _ Hrun)
    as (n & -> & Hbefore & Hlast).
  eexists. 
  destruct (Z_lt_le_dec x (start + Z.of_nat n * (chunk_size scanner))) as [Hin|Hout].
  - pose proof (Z.div_mod (x - start) (chunk_size scanner) ltac:(lia)) as Hdm.
    pose proof (Z.mod_pos_bound (x - start) (chunk_size scanner) ltac:(lia)) as Hmod.
    assert (0 <= (x - start) / (chunk_size scanner)) as Hq by (apply Z.div_pos; lia).
    assert ((x - start) / (chunk_size scanner) < Z.of_nat n) as Hqn by nia.
    exists (full_chunk scanner layer_name
              (start + Z.of_nat (Z.to_nat ((x - start) / (chunk_size scanner))) * (chunk_size scanner))).
    split; [exact Hrun|]. split.
    + apply list_elem_of_lookup. exists (Z.to_nat ((x - start) / (chunk_size scanner))).
      apply region_chunks_full. lia.
    + unfold holds_window, chunk_hi, chunk_lo, chunk_len, full_chunk. simpl.
      rewrite Z2Nat.id by lia. nia.
  - exists (last_chunk layer_name (start + Z.of_nat n * (chunk_size scanner)) end_).
    split; [exact Hrun|]. split.
    + apply list_elem_of_lookup. exists n. apply region_chunks_last.
    + unfold holds_window, chunk_hi, chunk_lo, chunk_len, last_chunk. simpl.
      lia.
Qed.

Lemma window_within_one_chunk_witness :
  exists l v,
    scan_region (region_fuel scanner_400_50 0 1000) scanner_400_50 "layer"
      0 1000 = Some l /\
    v ∈ l /\
    holds_window v 399 51.
Proof.
  apply (window_within_one_chunk scanner_400_50 "layer" 0 1000 399 51);
    simpl; lia.
Defined.

(** X2. The bound of X1 is exact.  With [0 <= overlap < chunk_size], in
    a region longer than [chunk_size + overlap] the window of
    [overlap + 2] bytes that starts on the last byte before the second
    chunk lies in the region and in none of the chunks the region
    yields. *)
Theorem window_bound_is_exact
    (scanner : ScannerInterface) (layer_name : string)
    (start end_ : Z) (fuel : nat) (l : list IteratorValue) :
  0 <= overlap scanner < chunk_size scanner ->
  end_ - start > chunk_size scanner + overlap scanner ->
  scan_region fuel scanner layer_name start end_ = Some l ->
  let x := start + chunk_size scanner - 1 in
  let m := overlap scanner + 2 in
  start <= x /\
  x + m <= end_ /\
  forall v, v ∈ l -> ~ holds_window v x m.
Proof.
  intros Hparams Hlong Hrun x m. subst x m.
  destruct (scan_region_closed_form _ _ _ _ _ _ Hrun)
    as (n & -> & Hbefore & Hlast).
  split; [lia|]. split; [lia|].
  assert (n <> 0%nat) as Hn by (intros ->; simpl in Hlast; lia).
  intros v Hv. apply list_elem_of_lookup in Hv as [i Hi].
  assert (i < S n)%nat as Hbound.
  { rewrite <- (region_chunks_length scanner layer_name end_ n start).
    eapply lookup_lt_Some; eassumption. }
  destruct (decide (i < n)%nat) as [Hfull|Hend].
  - rewrite region_chunks_full in Hi by assumption. inversion Hi; subst v.
    unfold holds_window, chunk_hi, chunk_lo, chunk_len, full_chunk. simpl.
    intros [Hleft Hright].
    destruct i as [|i]; [simpl in *; lia|].
    assert (chunk_size scanner <= Z.of_nat (S i) * chunk_size scanner)
      by nia.
    lia.
  - assert (i = n) by lia. subst i.
    rewrite region_chunks_last in Hi. inversion Hi; subst v.
    unfold holds_window, chunk_hi, chunk_lo, chunk_len, last_chunk. simpl.
    intros [Hleft Hright].
    assert (chunk_size scanner <= Z.of_nat n * chunk_size scanner) by nia.
    lia.
Qed.

Lemma window_bound_is_exact_witness :
  0 <= 0 + chunk_size scanner_400_50 - 1 /\
  0 + chunk_size scanner_400_50 - 1 + (overlap scanner_400_50 + 2) <= 1000 /\
  forall v,
    v ∈ [ ([("layer", 0, 450)], 450);
          ([("layer", 400, 450)], 850);
          ([("layer", 800, 200)], 1000) ] ->
    ~ holds_window v (0 + chunk_size scanner_400_50 - 1)
        (overlap scanner_400_50 + 2).
Proof.
  apply (window_bound_is_exact scanner_400_50 "layer" 0 1000 2%nat);
    [simpl; lia | simpl; lia | reflexivity].
Defined.

(** X3. Requests stay inside the region.  For a region with
    [start <= end_] and a scanner with [0 <= overlap] and
    [0 <= chunk_size], every value a finished run yields is one section on
    [layer_name] that starts at or after [start], ends at or before
    [end_], has a length between [0] and [chunk_size + overlap], and
    carries its own end as the address reached.  For a region with
    [end_ < start] the run yields one request, of negative length. *)
Theorem requests_within_region
    (scanner : ScannerInterface) (layer_name : string)
    (start end_ : Z) (fuel : nat) (l : list IteratorValue) :
  0 <= overlap scanner ->
  0 <= chunk_size scanner ->
  scan_region fuel scanner layer_name start end_ = Some l ->
  (start <= end_ ->
   forall v, v ∈ l ->
     fst v = [(layer_name, chunk_lo v, chunk_len v)] /\
     snd v = chunk_lo v + chunk_len v /\
     start <= chunk_lo v /\
     chunk_lo v + chunk_len v <= end_ /\
     0 <= chunk_len v <= chunk_size scanner + overlap scanner) /\
  (end_ < start ->
   l = [([(layer_name, start, end_ - start)], end_)] /\ end_ - start < 0).
Proof.
  intros HO HC Hrun.
  destruct (scan_region_closed_form _ _ _ _ _ _ Hrun)
    as (n & -> & Hbefore & Hlast).
  split.
  - intros Hregion v Hv. apply list_elem_of_lookup in Hv as [i Hi].
    assert (i < S n)%nat as Hbound.
    { rewrite <- (region_chunks_length scanner layer_name end_ n start).
      eapply lookup_lt_Some; eassumption. }
    destruct (decide (i < n)%nat) as [Hfull|Hend].
    + rewrite region_chunks_full in Hi by assumption. inversion Hi; subst v.
      pose proof (Hbefore i Hfull) as Hguard.
      unfold chunk_lo, chunk_len, full_chunk. simpl.
      assert (0 <= Z.of_nat i * chunk_size scanner)
        by (apply Z.mul_nonneg_nonneg; lia).
      split; [reflexivity|]. split; lia.
    + assert (i = n) by lia. subst i.
      rewrite region_chunks_last in Hi. inversion Hi; subst v.
      unfold chunk_lo, chunk_len, last_chunk. simpl.
      split; [reflexivity|]. split; [lia|].
      destruct n as [|n]; [simpl in *; lia|].
      pose proof (Hbefore n ltac:(lia)) as Hguard.
      assert (0 <= Z.of_nat n * chunk_size scanner)
        by (apply Z.mul_nonneg_nonneg; lia).
      lia.
  - intros Hinverted.
    destruct n as [|n].
    + unfold region_chunks, last_chunk. simpl. split; [|lia].
      replace (start + Z.of_nat 0 * chunk_size scanner) with start by lia.
      reflexivity.
    + pose proof (Hbefore 0%nat ltac:(lia)) as Hguard. simpl in Hguard. lia.
Qed.

Lemma requests_within_region_witness :
  fst (last_chunk "layer" 800 1000)
    = [("layer", chunk_lo (last_chunk "layer" 800 1000),
        chunk_len (last_chunk "layer" 800 1000))] /\
  snd (last_chunk "layer" 800 1000)
    = chunk_lo (last_chunk "layer" 800 1000)
      + chunk_len (last_chunk "layer" 800 1000) /\
  0 <= chunk_lo (last_chunk "layer" 800 1000) /\
  chunk_lo (last_chunk "layer" 800 1000)
    + chunk_len (last_chunk "layer" 800 1000) <= 1000 /\
  0 <= chunk_len (last_chunk "layer" 800 1000)
    <= chunk_size scanner_400_50 + overlap scanner_400_50.
Proof.
  apply (proj1 (requests_within_region scanner_400_50 "layer" 0 1000 2%nat
                  _ ltac:(simpl; lia) ltac:(simpl; lia) eq_refl)
           ltac:(lia)).
  right. right. left.
Defined.

(** X4. A chunk size that is not positive hangs the scan.  When
    [chunk_size <= 0] and a region is longer than [chunk_size + overlap],
    the loop never leaves that region, whatever the bound on the
    iterations, and a traversal never gets to the regions after it. *)
Theorem nonpositive_chunk_size_never_finishes
    (scanner : ScannerInterface) (layer_name : string)
    (start end_ : Z) :
  chunk_size scanner <= 0 ->
  end_ - start > chunk_size scanner + overlap scanner ->
  (forall fuel, scan_region fuel scanner layer_name start end_ = None) /\
  (forall fuel vads1 vads2 lo hi,
      scan_iterator fuel layer_name
        (vads1 ++ {| get_start := start; get_end := end_ |} :: vads2)
        scanner lo hi = None).
Proof.
  intros HC Hlong.
  assert (forall fuel s, s <= start ->
             scan_region fuel scanner layer_name s end_ = None) as Hstuck.
  { induction fuel as [|fuel IH]; intros s Hs.
    - simpl.
      destruct (Z.gtb_spec (end_ - s)
                  (chunk_size scanner + overlap scanner));
        [reflexivity | lia].
    - rewrite scan_region_step by lia. rewrite IH by lia. reflexivity. }
  split; [intros fuel; apply Hstuck; lia|].
  intros fuel vads1 vads2 lo hi.
  induction vads1 as [|vad vads1 IH]; simpl.
  - rewrite Hstuck by lia. reflexivity.
  - rewrite IH.
    destruct (scan_region fuel scanner layer_name (get_start vad)
                (get_end vad)); reflexivity.
Qed.

Lemma nonpositive_chunk_size_never_finishes_witness :
  scan_region 1000 {| chunk_size := 0; overlap := 0 |} "layer" 0 1 = None.
Proof.
  apply (proj1 (nonpositive_chunk_size_never_finishes
                  {| chunk_size := 0; overlap := 0 |} "layer" 0 1
                  ltac:(simpl; lia) ltac:(simpl; lia))).
Defined.

(** X5. The scan makes progress.  With [0 <= overlap < chunk_size], of
    two consecutive values a finished run yields, the second starts
    exactly [chunk_size] after the first and reaches a strictly larger
    address; the address reached by the last value is [end_]. *)
Theorem consecutive_requests_advance
    (scanner : ScannerInterface) (layer_name : string)
    (start end_ : Z) (fuel : nat) (l : list IteratorValue) :
  0 <= overlap scanner < chunk_size scanner ->
  scan_region fuel scanner layer_name start end_ = Some l ->
  (forall (i : nat) a b,
      l !! i = Some a -> l !! S i = Some b ->
      chunk_lo b = chunk_lo a + chunk_size scanner /\ snd a < snd b) /\
  (exists v, last l = Some v /\ snd v = end_).
Proof.
  intros Hparams Hrun.
  destruct (scan_region_closed_form _ _ _ _ _ _ Hrun)
    as (n & -> & Hbefore & Hlast).
  split.
  - intros i a b Ha Hb.
    assert (S i < S n)%nat as Hbound.
    { rewrite <- (region_chunks_length scanner layer_name end_ n start).
      eapply lookup_lt_Some; eassumption. }
    rewrite region_chunks_full in Ha by lia. inversion Ha; subst a.
    pose proof (Hbefore i ltac:(lia)) as Hguard.
    destruct (decide (S i = n)) as [Heq|Hne].
    + subst n. rewrite region_chunks_last in Hb. inversion Hb; subst b.
      unfold chunk_lo, full_chunk, last_chunk. simpl. lia.
    + rewrite region_chunks_full in Hb by lia. inversion Hb; subst b.
      unfold chunk_lo, full_chunk. simpl. lia.
  - exists (last_chunk layer_name (start + Z.of_nat n * (chunk_size scanner)) end_).
    split; [|reflexivity].
    unfold region_chunks. apply last_snoc.
Qed.

Lemma consecutive_requests_advance_witness :
  exists v,
    last [ ([("layer", 0, 450)], 450);
           ([("layer", 400, 450)], 850);
           ([("layer", 800, 200)], 1000) ] = Some v /\
    snd v = 1000.
Proof.
  apply (proj2 (consecutive_requests_advance scanner_400_50 "layer" 0 1000
                  2%nat _ ltac:(simpl; lia) eq_refl)).
Defined.

(** X6. A whole traversal finishes.  With [0 <= overlap < chunk_size],
    for every finite sequence of VADs, regions with [end_ < start] included,
    [scan_iterator] yields one finite list, the same for every sufficient
    bound on the iterations and for every [min_address] and [max_address];
    it holds the announced number of chunks for each region, added up, and
    at least one value per VAD. *)
Theorem traversal_finishes
    (scanner : ScannerInterface) (layer_name : string) (vads : list Vad) :
  0 <= overlap scanner < chunk_size scanner ->
  exists l : list IteratorValue,
    (forall fuel min_address max_address,
        (traversal_fuel vads <= fuel)%nat ->
        scan_iterator fuel layer_name vads scanner min_address max_address
          = Some l) /\
    Z.of_nat (length l) = expected_total scanner vads /\
    (length vads <= length l)%nat.
Proof.
  intros Hparams. induction vads as [|vad vads IH].
  - exists []. split; [reflexivity|]. split; [reflexivity | simpl; lia].
  - destruct IH as (rest & Hrest & Hcount & Hlen).
    destruct (scan_region_enough_fuel scanner layer_name (get_end vad)
                (Z.to_nat (get_end vad - get_start vad)) (get_start vad)
                Hparams ltac:(lia)) as [chunks Hchunks].
    exists (chunks ++ rest). split; [|split].
    + intros fuel min_address max_address Hfuel. simpl in *.
      replace fuel
        with (Z.to_nat (get_end vad - get_start vad)
              + (fuel - Z.to_nat (get_end vad - get_start vad)))%nat
        at 1 by lia.
      rewrite (scan_region_more_fuel _ _ _ _ _ _ _ Hchunks).
      rewrite Hrest by lia. reflexivity.
    + destruct (scan_region_closed_form _ _ _ _ _ _ Hchunks)
        as (n & -> & Hbefore & Hlast).
      rewrite length_app, region_chunks_length, Nat2Z.inj_add. simpl.
      rewrite <- Hcount.
      rewrite <- (closed_form_count scanner (get_end vad) n (get_start vad)
                    Hparams Hbefore Hlast).
      lia.
    + destruct (scan_region_closed_form _ _ _ _ _ _ Hchunks)
        as (n & -> & Hbefore & Hlast).
      rewrite length_app, region_chunks_length. simpl. lia.
Qed.

Lemma traversal_finishes_witness :
  exists l : list IteratorValue,
    (forall fuel min_address max_address,
        (traversal_fuel [ {| get_start := 0; get_end := 1000 |};
                          {| get_start := 9; get_end := 5 |} ] <= fuel)%nat ->
        scan_iterator fuel "layer"
          [ {| get_start := 0; get_end := 1000 |};
            {| get_start := 9; get_end := 5 |} ] scanner_400_50
          min_address max_address = Some l) /\
    Z.of_nat (length l)
      = expected_total scanner_400_50
          [ {| get_start := 0; get_end := 1000 |};
            {| get_start := 9; get_end := 5 |} ] /\
    (2 <= length l)%nat.
Proof.
  apply (traversal_finishes scanner_400_50 "layer"
           [ {| get_start := 0; get_end := 1000 |};
             {| get_start := 9; get_end := 5 |} ]).
  simpl. lia.
Defined.

End ScannerExtras.

(** ** The rule text of VadYaraScan: sources, errors, options *)

Module VadYaraScanExtras.
Import VadYaraScan.

Lemma append_length (s t : string) :
  String.length (s +:+ t) = (String.length s + String.length t)%nat.
Proof. induction s as [|c s IH]; simpl; [reflexivity | rewrite IH; reflexivity]. Qed.

(** A common suffix cancels. *)
Lemma append_cancel_r (t : string) :
  forall s1 s2, s1 +:+ t = s2 +:+ t -> s1 = s2.
Proof.
  induction s1 as [|c1 s1 IH]; intros [|c2 s2] Heq.
  - reflexivity.
  - apply (f_equal String.length) in Heq.
    rewrite !append_length in Heq. simpl in Heq. lia.
  - apply (f_equal String.length) in Heq.
    rewrite !append_length in Heq. simpl in Heq. lia.
  - cbn in Heq. inversion Heq; subst. f_equal. apply IH. assumption.
Qed.

Lemma append_cancel_l (t : string) :
  forall s1 s2, t +:+ s1 = t +:+ s2 -> s1 = s2.
Proof.
  induction t as [|c t IH]; intros s1 s2 Heq; simpl in Heq;
    [assumption|].
  inversion Heq. auto.
Qed.

Lemma rule_source_inj (r1 r2 : string) :
  rule_source r1 = rule_source r2 -> r1 = r2.
Proof.
  unfold rule_source. intros Heq.
  apply append_cancel_l in Heq. apply append_cancel_r in Heq. assumption.
Qed.

Lemma quoted_inj (r1 r2 : string) : quoted r1 = quoted r2 -> r1 = r2.
Proof.
  unfold quoted. intros Heq. inversion Heq as [Htail].
  apply append_cancel_r in Htail. assumption.
Qed.

(** The text given to the rule before the modifiers. *)
Lemma rule_body_inj (r1 r2 : string) (c1 c2 : ascii) (t1 t2 : string) :
  r1 = String c1 t1 ->
  r2 = String c2 t2 ->
  (if needs_quotes c1 then quoted r1 else r1)
  = (if needs_quotes c2 then quoted r2 else r2) ->
  r1 = r2.
Proof.
  intros -> -> Heq.
  destruct (needs_quotes c1) eqn:H1, (needs_quotes c2) eqn:H2.
  - apply quoted_inj. assumption.
  - unfold quoted in Heq. inversion Heq; subst. discriminate H2.
  - unfold quoted in Heq. inversion Heq; subst. discriminate H1.
  - assumption.
Qed.

(** X7. Which rules get compiled.  A non-empty [yara_rules] string wins:
    the rules are compiled from its text whatever [yara_file] holds.  When
    [yara_rules] is absent or [None], the rules come from [yara_file] if
    that is set; when neither is set nothing is compiled and no exception
    is raised. *)
Theorem rules_source_selection (config : gmap string ConfigValue) :
  (forall first rest uri,
      config !! "yara_rules" = Some (CStr (String first rest)) ->
      build_rules (<["yara_file" := uri]> config) = build_rules config /\
      build_rules (delete "yara_file" config) = build_rules config /\
      exists source, build_rules config = inr (CompileSources source)) /\
  (config_get config "yara_rules" CNone = CNone ->
   forall uri, config !! "yara_file" = Some uri -> uri <> CNone ->
     build_rules config = inr (CompileFile uri)) /\
  (config_get config "yara_rules" CNone = CNone ->
   config_get config "yara_file" CNone = CNone ->
   build_rules config = inr NoRules).
Proof.
  split; [|split].
  - intros first rest uri Hrules.
    split; [|split].
    + unfold build_rules, config_get.
      rewrite (lookup_insert_ne config "yara_file" "yara_rules"),
        (lookup_insert_ne config "yara_file" "case"),
        (lookup_insert_ne config "yara_file" "wide") by discriminate.
      rewrite Hrules. reflexivity.
    + unfold build_rules, config_get.
      rewrite (lookup_delete_ne config "yara_file" "yara_rules"),
        (lookup_delete_ne config "yara_file" "case"),
        (lookup_delete_ne config "yara_file" "wide") by discriminate.
      rewrite Hrules. reflexivity.
    + unfold build_rules, config_get. rewrite Hrules. eauto.
  - intros Hnone uri Hfile Hset.
    unfold build_rules. rewrite Hnone. unfold config_get. rewrite Hfile.
    destruct uri; congruence.
  - intros Hnone Hfile. unfold build_rules. rewrite Hnone, Hfile.
    reflexivity.
Qed.

Lemma rules_source_selection_witness :
  build_rules (<["yara_file" := CStr "file:///rules.yar"]>
                 {[ "yara_rules" := CStr "evil" ]})
  = build_rules {[ "yara_rules" := CStr "evil" ]}.
Proof.
  apply (proj1 (rules_source_selection {[ "yara_rules" := CStr "evil" ]})
           "e"%char "vil" (CStr "file:///rules.yar")).
  reflexivity.
Defined.



(** X9. Different rules give different rule text.  Under the same other
    options, two different [yara_rules] strings never make [_generator]
    build the same rules. *)
Theorem rule_text_injective
    (config : gmap string ConfigValue) (r1 r2 : string) :
  r1 <> r2 ->
  build_rules (<["yara_rules" := CStr r1]> config)
  <> build_rules (<["yara_rules" := CStr r2]> config).
Proof.
  intros Hne Heq. apply Hne. revert Heq.
  unfold build_rules, config_get.
  rewrite !lookup_insert_eq.
  rewrite !(lookup_insert_ne _ "yara_rules") by discriminate.
  destruct r1 as [|c1 t1], r2 as [|c2 t2]; try discriminate;
    [reflexivity|].
  intros Heq.
  match type of Heq with
  | inr (CompileSources (rule_source ?a))
    = inr (CompileSources (rule_source ?b)) =>
      assert (a = b) as Hsource by (apply rule_source_inj; congruence)
  end.
  clear Heq.
  destruct (truthy match config !! "wide" with
                   | Some v => v | None => CBool false end);
    [apply append_cancel_r in Hsource|];
    (destruct (truthy match config !! "case" with
                      | Some v => v | None => CBool false end);
     [apply append_cancel_r in Hsource|]);
    eapply rule_body_inj; eauto.
Qed.

Lemma rule_text_injective_witness :
  ("{ 4D 5A }" <> "4D 5A") /\
  (build_rules (<["yara_rules" := CStr "{ 4D 5A }"]>
                  {[ "wide" := CBool true ]})
   <> build_rules (<["yara_rules" := CStr "4D 5A"]>
                     {[ "wide" := CBool true ]})).
Proof.
  split; [discriminate|].
  apply (rule_text_injective {[ "wide" := CBool true ]} "{ 4D 5A }" "4D 5A").
  discriminate.
Defined.

(** X10. The process filter is never given a pid.  [_generator] reads the
    key [pid], which [get_requirements] does not declare: for a
    configuration that holds declared keys only, [create_filter] always
    receives the list [[None]]. *)
Theorem pid_never_configured :
  ("pid" ∉ declared_names) /\
  (forall config : gmap string ConfigValue,
      (forall key, is_Some (config !! key) -> key ∈ declared_names) ->
      process_filter_pids config = [CNone]).
Proof.
  assert ("pid" ∉ declared_names) as Hpid.
  { unfold declared_names. simpl. intros Hin.
    repeat (apply elem_of_cons in Hin as [Heq|Hin]; [discriminate Heq|]).
    inversion Hin. }
  split; [exact Hpid|].
  intros config Hdeclared. unfold process_filter_pids, config_get.
  destruct (config !! "pid") eqn:Hc; [|reflexivity].
  exfalso. apply Hpid, Hdeclared. eauto.
Qed.

Lemma pid_never_configured_witness :
  process_filter_pids {[ "yara_rules" := CStr "evil" ]} = [CNone].
Proof.
  apply (proj2 pid_never_configured).
  intros key [v Hv].
  destruct (decide (key = "yara_rules")) as [->|Hne].
  - unfold declared_names. simpl. do 6 right. left.
  - rewrite lookup_singleton_ne in Hv by congruence. discriminate.
Defined.

(** X11. The rules depend on four keys only.  Setting or removing any key
    other than [yara_rules], [yara_file], [case] and [wide] leaves the
    rules as they are; of these four, [get_requirements] declares three, so
    the declared options [primary], [nt_symbols], [all], [insensitive],
    [kernel] and [max_size] never change the rules. *)
Theorem rules_ignore_other_options :
  (forall (config : gmap string ConfigValue) key v,
      key ∉ rule_keys ->
      build_rules (<[key := v]> config) = build_rules config /\
      build_rules (delete key config) = build_rules config) /\
  (forall key,
      key ∈ declared_names ->
      key ∈ rule_keys \/
      key ∈ ["primary"; "nt_symbols"; "all"; "insensitive"; "kernel";
             "max_size"]) /\
  (forall key,
      key ∈ ["primary"; "nt_symbols"; "all"; "insensitive"; "kernel";
             "max_size"] ->
      key ∈ declared_names /\ key ∉ rule_keys).
Proof.
  split; [|split].
  - intros config key v Hkey.
    assert (key <> "yara_rules" /\ key <> "yara_file" /\
            key <> "case" /\ key <> "wide") as (H1 & H2 & H3 & H4).
    { unfold rule_keys in Hkey.
      repeat split; intros ->; apply Hkey; repeat constructor. }
    split; unfold build_rules, config_get.
    + rewrite !(lookup_insert_ne config key) by assumption. reflexivity.
    + rewrite !(lookup_delete_ne config key) by assumption. reflexivity.
  - intros key Hin. unfold declared_names in Hin. simpl in Hin.
    unfold rule_keys.
    repeat (apply elem_of_cons in Hin as [->|Hin];
            [first [left; solve [repeat constructor]
                   |right; solve [repeat constructor]]|]).
    inversion Hin.
  - intros key Hin.
    repeat (apply elem_of_cons in Hin as [->|Hin];
            [split;
             [unfold declared_names; simpl; solve [repeat constructor]
             |unfold rule_keys; intros Hbad;
              repeat (apply elem_of_cons in Hbad as [Heq|Hbad];
                      [discriminate Heq|]);
              inversion Hbad]|]).
    inversion Hin.
Qed.

Lemma rules_ignore_other_options_witness :
  build_rules (<["kernel" := CBool true]> {[ "yara_rules" := CStr "evil" ]})
  = build_rules {[ "yara_rules" := CStr "evil" ]}.
Proof.
  apply (proj1 rules_ignore_other_options
           {[ "yara_rules" := CStr "evil" ]} "kernel" (CBool true)).
  unfold rule_keys. intros Hbad.
  repeat (apply elem_of_cons in Hbad as [Heq|Hbad]; [discriminate Heq|]).
  inversion Hbad.
Defined.

End VadYaraScanExtras.

(** ** The template engine: chains of references, what a construction
    leaves alone *)

Module TemplateExtras.
Import Templates TemplateFacts.

Section Engine.

Variable implementation : string -> option ObjectClass.


(** X13. References that only lead to references never construct.  When
    every template of a set is a ReferenceTemplate whose name the symbol
    space of the context resolves to a template of the set (a reference to
    itself, a cycle), calling one of them raises a RecursionError at every
    recursion limit and leaves the world as it was. *)
Theorem reference_cycle_never_constructs
    (w : World) (context : Context) (object_info : ObjectInformation)
    (tbl : gmap string loc) (cycle : loc -> Prop) :
  symbol_spaces w !! symbol_space context = Some tbl ->
  (forall r, cycle r ->
     exists n r', reference_template w r n /\
                  tbl !! n = Some r' /\ cycle r') ->
  forall depth r, cycle r ->
    Template_call implementation depth r context object_info w
    = (Raise RecursionError, w).
Proof.
  intros Hspace Hclosed.
  induction depth as [|depth IH]; intros r Hr; [reflexivity|].
  destruct (Hclosed r Hr) as (n & r' & Href & Hname & Hr').
  rewrite (Template_call_reference implementation depth w r n)
    by assumption.
  rewrite (ReferenceTemplate_call_resolves _ w r n context object_info
             tbl Href Hspace).
  rewrite Hname. apply IH. assumption.
Qed.

(** *** What a construction leaves alone *)

Lemma writes_only_ret l {A} (a : A) : writes_only l (ret a).
Proof. intros w. simpl. auto. Qed.

Lemma writes_only_raise l {A} (e : Error) : writes_only l (@raise A e).
Proof. intros w. simpl. auto. Qed.

Lemma writes_only_lift l {A} (r : Result A) : writes_only l (lift r).
Proof. intros w. simpl. auto. Qed.

Lemma writes_only_bind l {A B} (c : M A) (k : A -> M B) :
  writes_only l c ->
  (forall a, writes_only l (k a)) ->
  writes_only l (bind c k).
Proof.
  intros Hc Hk w. unfold bind.
  destruct (Hc w) as (Ht & Hs & Hd).
  destruct (c w) as [[a|e] w1]; simpl in *; [|auto].
  destruct (Hk a w1) as (Ht' & Hs' & Hd').
  split; [congruence|]. split; [congruence|].
  intros d Hne. rewrite Hd', Hd by assumption. reflexivity.
Qed.

Lemma writes_only_read_dict l d : writes_only l (read_dict d).
Proof.
  intros w. unfold read_dict. destruct (dicts w !! d); simpl; auto.
Qed.

Lemma writes_only_write_dict l m : writes_only l (write_dict l m).
Proof.
  intros w. unfold write_dict. simpl. split; [reflexivity|].
  split; [reflexivity|]. intros d Hne. apply lookup_insert_ne. congruence.
Qed.

Lemma writes_only_volinfo l self : writes_only l (volinfo self).
Proof.
  intros w. unfold volinfo.
  destruct (templates w !! self); [apply writes_only_read_dict|].
  simpl. auto.
Qed.

Lemma writes_only_getattr l vol name : writes_only l (getattr vol name).
Proof.
  unfold getattr. destruct (vol !! name);
    [apply writes_only_ret | apply writes_only_raise].
Qed.

Lemma writes_only_object_class_of l self :
  writes_only l (object_class_of implementation self).
Proof.
  unfold object_class_of.
  apply writes_only_bind; [apply writes_only_volinfo|]. intros vol.
  apply writes_only_bind; [apply writes_only_getattr|]. intros cls.
  apply writes_only_bind; [|intros impl; apply writes_only_ret].
  unfold as_object_class. destruct cls; try apply writes_only_raise.
  destruct (implementation name);
    [apply writes_only_ret | apply writes_only_raise].
Qed.

Lemma writes_only_dict_update l other : writes_only l (dict_update l other).
Proof.
  unfold dict_update.
  apply writes_only_bind; [apply writes_only_read_dict|]. intros m.
  apply writes_only_write_dict.
Qed.

Lemma writes_only_dict_delitem l key : writes_only l (dict_delitem l key).
Proof.
  unfold dict_delitem.
  apply writes_only_bind; [apply writes_only_read_dict|]. intros m.
  destruct (m !! key);
    [apply writes_only_write_dict | apply writes_only_raise].
Qed.

Lemma preserves_refl w : preserves w w.
Proof. unfold preserves. auto. Qed.

Lemma preserves_trans w1 w2 w3 :
  preserves w1 w2 -> preserves w2 w3 -> preserves w1 w3.
Proof.
  intros (Ht & Hs & Hd) (Ht' & Hs' & Hd').
  split; [congruence|]. split; [congruence|]. auto.
Qed.

Lemma ObjectTemplate_call_preserves w self context object_info :
  preserves w
    (snd (ObjectTemplate_call implementation self context object_info w)).
Proof.
  unfold ObjectTemplate_call, bind at 1, new_dict.
  set (l := fresh (dom (dicts w))).
  set (w1 := {| dicts := <[l:=∅]> (dicts w);
                templates := templates w;
                symbol_spaces := symbol_spaces w |}).
  match goal with
  | |- preserves w (snd (?rest w1)) =>
      assert (writes_only l rest) as Hrest
  end.
  { apply writes_only_bind; [apply writes_only_volinfo|]. intros vol.
    apply writes_only_bind; [apply writes_only_dict_update|]. intros _.
    apply writes_only_bind; [apply writes_only_dict_delitem|]. intros _.
    apply writes_only_bind; [apply writes_only_object_class_of|]. intros vi.
    apply writes_only_bind; [apply writes_only_read_dict|]. intros kwargs.
    apply writes_only_lift. }
  destruct (Hrest w1) as (Ht & Hs & Hd).
  split; [rewrite Ht; reflexivity|]. split; [rewrite Hs; reflexivity|].
  intros d m Hdm.
  assert (d <> l) as Hne.
  { intros ->. eapply fresh_dict_ne; [exact Hdm | reflexivity]. }
  rewrite Hd by assumption. simpl.
  rewrite lookup_insert_ne by congruence. assumption.
Qed.

(** X14. A construction leaves every existing object alone, whether it
    returns an object or raises.  For every template, of either class or
    none, every context, every recursion limit and every world, after the
    call the templates and the symbol spaces are the same and every
    dictionary that existed holds the same entries. *)
Theorem construction_preserves_world
    (depth : nat) (w : World) (self : loc) (context : Context)
    (object_info : ObjectInformation) :
  preserves w
    (snd (Template_call implementation depth self context object_info w)).
Proof.
  revert w self. induction depth as [|depth IH]; intros w self.
  - apply preserves_refl.
  - simpl. destruct (templates w !! self) as [obj|];
      [|apply preserves_refl].
    destruct (variant obj); [apply ObjectTemplate_call_preserves|].
    unfold ReferenceTemplate_call, bind.
    destruct (writes_only_volinfo 0%nat self w) as (Ht & Hs & Hd).
    assert (snd (volinfo self w) = w) as Hsame.
    { unfold volinfo, read_dict.
      destruct (templates w !! self) as [obj'|]; [|reflexivity].
      destruct (dicts w !! arguments_of obj'); reflexivity. }
    destruct (volinfo self w) as [[vol|e] w1]; simpl in Hsame; subst w1;
      [|apply preserves_refl].
    unfold getattr. destruct (vol !! "structure_name") as [name|];
      [|apply preserves_refl].
    unfold ret, get_structure.
    destruct (symbol_spaces w !! symbol_space context) as [tbl|];
      [|apply preserves_refl].
    destruct name; try apply preserves_refl.
    destruct (tbl !! s); [apply IH | apply preserves_refl].
Qed.

(** *** Building a template *)

Lemma fresh_template_ne w t obj :
  templates w !! t = Some obj -> fresh (dom (templates w)) <> t.
Proof.
  intros Ht Heq. apply (is_fresh (dom (templates w))).
  rewrite Heq. apply elem_of_dom. eauto.
Qed.

(** The world [Template.__init__] leaves, with or without the
    [object_class] entry. *)
Lemma extends_built w params :
  extends w
    {| dicts := <[fresh (dom (dicts w)) := params]> (dicts w);
       templates :=
         <[fresh (dom (templates w)) :=
             {| variant := Direct; arguments_of := fresh (dom (dicts w)) |}]>
           (templates w);
       symbol_spaces := symbol_spaces w |}.
Proof.
  split; [|split]; simpl.
  - intros t obj Ht.
    rewrite lookup_insert_ne by (eapply fresh_template_ne; eassumption).
    assumption.
  - reflexivity.
  - intros d m Hd.
    rewrite lookup_insert_ne by (eapply fresh_dict_ne; eassumption).
    assumption.
Qed.

Lemma ObjectTemplate_new_failed object_class structure_name arguments w :
  ~ satisfies_contract implementation object_class ->
  snd (ObjectTemplate_new implementation object_class structure_name
         arguments w)
  = {| dicts := <[fresh (dom (dicts w)) :=
                    <["structure_name" := structure_name]> arguments]>
                  (dicts w);
       templates :=
         <[fresh (dom (templates w)) :=
             {| variant := Direct; arguments_of := fresh (dom (dicts w)) |}]>
           (templates w);
       symbol_spaces := symbol_spaces w |}.
Proof.
  intros Hbad.
  unfold ObjectTemplate_new, Template_new, bind, new_dict, write_dict,
    _class_check, raise.
  simpl. rewrite insert_insert_eq.
  destruct object_class as [| | | |c| |]; try reflexivity.
  destruct (implementation c) as [impl|] eqn:Himpl; [|reflexivity].
  exfalso. apply Hbad. exists c, impl. auto.
Qed.

(** X15. Building an ObjectTemplate.  Whether [ObjectTemplate(...)]
    returns or raises, every template, dictionary and symbol space that
    existed is unchanged.  When it returns, the template is a new object
    and its parameters are the ones it was built with: [object_class],
    [structure_name], and every other argument under its own key. *)
Theorem build_round_trip
    (object_class structure_name : Value) (arguments : gmap string Value)
    (w : World) :
  let r := ObjectTemplate_new implementation object_class structure_name
             arguments w in
  extends w (snd r) /\
  forall self, fst r = Ok self ->
    templates w !! self = None /\
    exists vol,
      volinfo self (snd r) = (Ok vol, snd r) /\
      vol !! "object_class" = Some object_class /\
      vol !! "structure_name" = Some structure_name /\
      forall key, key <> "object_class" -> key <> "structure_name" ->
        vol !! key = arguments !! key.
Proof.
  intros r. subst r.
  destruct (satisfies_contract_dec implementation object_class)
    as [(c & impl & -> & Himpl)|Hbad].
  - rewrite (ObjectTemplate_new_ok implementation c impl _ _ _ Himpl).
    simpl. split; [apply extends_built|].
    intros self Hself. inversion Hself; subst self.
    split; [apply not_elem_of_dom, is_fresh|].
    eexists. split; [|split; [|split]].
    + unfold volinfo, read_dict. simpl.
      rewrite lookup_insert_eq. simpl. rewrite lookup_insert_eq.
      reflexivity.
    + apply lookup_insert_eq.
    + rewrite lookup_insert_ne by discriminate. apply lookup_insert_eq.
    + intros key H1 H2. rewrite !lookup_insert_ne by congruence.
      reflexivity.
  - split.
    + rewrite ObjectTemplate_new_failed by assumption. apply extends_built.
    + intros self Hself.
      rewrite (ObjectTemplate_new_invalid implementation _ _ _ _ Hbad)
        in Hself.
      discriminate.
Qed.

End Engine.

Lemma build_round_trip_witness :
  templates empty_world !! 0%nat = None /\
  exists vol,
    volinfo 0%nat
      (snd (ObjectTemplate_new sample_classes (VClass "Integer") (VStr "int")
              {[ "size" := VInt 4 ]} empty_world))
    = (Ok vol,
       snd (ObjectTemplate_new sample_classes (VClass "Integer") (VStr "int")
              {[ "size" := VInt 4 ]} empty_world)) /\
    vol !! "object_class" = Some (VClass "Integer") /\
    vol !! "structure_name" = Some (VStr "int") /\
    forall key, key <> "object_class" -> key <> "structure_name" ->
      vol !! key = ({[ "size" := VInt 4 ]} : gmap string Value) !! key.
Proof.
  apply (proj2 (build_round_trip sample_classes (VClass "Integer")
                  (VStr "int") {[ "size" := VInt 4 ]} empty_world) 0%nat).
  vm_compute. exact eq_refl.
Defined.






Lemma sample_cyclic_reference :
  reference_template sample_cyclic_world 3%nat "pair".
Proof.
  exists {[ "structure_name" := VStr "pair" ]}. split.
  - exists {| variant := Reference; arguments_of := 3%nat |}.
    split; [|split]; vm_compute; exact eq_refl.
  - vm_compute. exact eq_refl.
Qed.

Lemma sample_cyclic_space :
  symbol_spaces sample_cyclic_world !! symbol_space sample_context
  = Some {[ "pair" := 3%nat ]}.
Proof. vm_compute. exact eq_refl. Qed.

Lemma reference_cycle_never_constructs_witness :
  Template_call sample_classes 1000 3%nat sample_context sample_location
    sample_cyclic_world
  = (Raise RecursionError, sample_cyclic_world).
Proof.
  apply (reference_cycle_never_constructs sample_classes sample_cyclic_world
           sample_context sample_location {[ "pair" := 3%nat ]}
           (fun r => r = 3%nat) sample_cyclic_space).
  - intros r ->. exists "pair", 3%nat.
    split; [exact sample_cyclic_reference|].
    split; [apply lookup_singleton_eq | reflexivity].
  - reflexivity.
Defined.

End TemplateExtras.
